(** * NEOnet authorization core: permission-utils and authorization-config

    A shallow embedding of the permission resolution core
    (lib/authorization/permission-utils.ts, config/authorization-config.ts,
    types/authorization.ts and the server-side check of the authorization
    guard) together with the properties established about it.

    Conventions of the embedding.
    - TypeScript types are erased at run time, so resources, actions, scopes
      and claims are plain strings, exactly what the functions receive.
    - A function that can [throw] returns a [Completion].
    - The two recursive role traversals take a recursion budget; [None] means
      the budget ran out.  The budget used by the entry points is shown to be
      always sufficient.
    - [console.warn] / [console.error] / [console.log] output and
      [performance.now] influence no result and are left out. *)

From stdpp Require Import base decidable option list gmap strings pretty sorting relations.
From Stdlib Require Import ZArith Lia Ascii.

Local Open Scope Z_scope.
#[local] Set Warnings "-clear-no-such-hyp".

(** ** JavaScript primitives used by the source *)

Module Js.

(** What a [throw] carries: [new Error(message)], or the [TypeError] the
    runtime raises when a property of [undefined] is read. *)
Inductive Exception : Type :=
| Error (message : string)
| TypeError (message : string).

(** Normal return or thrown exception. *)
Inductive Completion (A : Type) : Type :=
| Return (a : A)
| Throw (e : Exception).
Global Arguments Return {A} a.
Global Arguments Throw {A} e.

(** [try { body } catch (error) { handler }] *)
Definition try_catch {A} (body : Completion A) (handler : Exception → Completion A)
  : Completion A :=
  match body with
  | Return a => Return a
  | Throw e => handler e
  end.

(** [s.split(sep)] for a one-character separator. *)
Fixpoint split (sep : ascii) (s : string) : list string :=
  match s with
  | EmptyString => [EmptyString]
  | String c rest =>
      if bool_decide (c = sep) then EmptyString :: split sep rest
      else match split sep rest with
           | head :: tail => String c head :: tail
           | [] => [String c EmptyString]
           end
  end.

(** [s.startsWith(p)] *)
Fixpoint startsWith (s p : string) {struct p} : bool :=
  match p, s with
  | EmptyString, _ => true
  | String _ _, EmptyString => false
  | String cp p', String cs s' => bool_decide (cs = cp) && startsWith s' p'
  end.

(** [array.includes(x)] *)
Definition includes (l : list string) (x : string) : bool := bool_decide (x ∈ l).

(** [array.find(pred)] *)
Fixpoint find {A} (pred : A → bool) (l : list A) : option A :=
  match l with
  | [] => None
  | x :: rest => if pred x then Some x else find pred rest
  end.

(** Property names every plain object inherits from [Object.prototype];
    each of them holds a function or an object, hence a truthy value. *)
Definition Object_prototype : list string :=
  [ "constructor"; "hasOwnProperty"; "isPrototypeOf"; "propertyIsEnumerable";
    "toLocaleString"; "toString"; "valueOf"; "__proto__";
    "__defineGetter__"; "__defineSetter__"; "__lookupGetter__"; "__lookupSetter__" ].

(** The result of [obj[key]] on an object literal of entries of type [A]. *)
Inductive Property (A : Type) : Type :=
| Own (a : A)          (* an entry of the literal *)
| Inherited            (* a member of Object.prototype *)
| Undefined.
Global Arguments Own {A} a.
Global Arguments Inherited {A}.
Global Arguments Undefined {A}.

Fixpoint assoc {A} (obj : list (string * A)) (key : string) : option A :=
  match obj with
  | [] => None
  | (k, a) :: rest => if bool_decide (k = key) then Some a else assoc rest key
  end.

(** [obj[key]] *)
Definition get {A} (obj : list (string * A)) (key : string) : Property A :=
  match assoc obj key with
  | Some a => Own a
  | None => if includes Object_prototype key then Inherited else Undefined
  end.

(** Truthiness of [obj[key]]: the entries are object literals. *)
Definition truthy {A} (p : Property A) : bool :=
  match p with
  | Own _ | Inherited => true
  | Undefined => false
  end.

(** [new Set(iterable)], [set.add(x)] and [Array.from(set)]: a set of
    strings is kept as the list of its members in insertion order. *)
Definition Set_add (s : list string) (x : string) : list string :=
  if includes s x then s else s ++ [x].

Definition Set_addAll (s : list string) (l : list string) : list string :=
  foldl Set_add s l.

Definition new_Set (l : list string) : list string := Set_addAll [] l.

End Js.

Import Js.

(** ** config/authorization-config.ts *)

Inductive RiskLevel : Type := low | medium | high | critical.

Global Instance RiskLevel_eq_dec : EqDecision RiskLevel.
Proof. solve_decision. Defined.

(** [APP_CONFIG.features] *)
Record Features : Type := {
  enableAuditLogging : bool;
  enableRealTimeUpdates : bool;
  enableAdvancedPermissions : bool;
  enableRoleInheritance : bool;
  enableTemporaryPermissions : bool;
  enableApprovalWorkflow : bool;
}.

Definition APP_CONFIG_features : Features := {|
  enableAuditLogging := true;
  enableRealTimeUpdates := false;
  enableAdvancedPermissions := true;
  enableRoleInheritance := true;
  enableTemporaryPermissions := false;
  enableApprovalWorkflow := false;
|}.

(** The members of the three string-literal union types
    (types/authorization.ts). *)
Definition ResourceType : list string :=
  [ "employee"; "member"; "service"; "application"; "user"; "contact"; "file";
    "website"; "announcement"; "feedback"; "billing"; "report"; "training";
    "equipment" ].

Definition AllPermissionActions : list string :=
  [ "view"; "create"; "update"; "delete";
    "approve"; "reject"; "assign"; "publish"; "unpublish"; "download"; "upload";
    "impersonate"; "configure"; "provision"; "suspend"; "restore"; "audit" ].

Definition PermissionScope : list string :=
  [ "all"; "owned"; "assigned"; "district"; "department"; "region"; "none" ].

(** The entries of the definition tables, with the fields the core reads
    (labels, descriptions, icons and categories are presentation data). *)
Record ResourceDefinition : Type := {
  defaultScopes : list string;
  resourceRiskLevel : RiskLevel;
}.

Record ActionDefinition : Type := {
  riskLevel : RiskLevel;
}.

Record ScopeDefinition : Type := {
  level : Z;
}.

Definition RESOURCE_DEFINITIONS : list (string * ResourceDefinition) :=
  [ ("employee", {| defaultScopes := ["all"; "department"; "assigned"; "owned"]; resourceRiskLevel := high |});
    ("member", {| defaultScopes := ["all"; "region"; "assigned"]; resourceRiskLevel := medium |});
    ("service", {| defaultScopes := ["all"; "assigned"]; resourceRiskLevel := high |});
    ("application", {| defaultScopes := ["all"; "assigned"]; resourceRiskLevel := medium |});
    ("user", {| defaultScopes := ["all"; "district"; "assigned"]; resourceRiskLevel := medium |});
    ("contact", {| defaultScopes := ["all"; "district"]; resourceRiskLevel := low |});
    ("file", {| defaultScopes := ["all"; "department"; "assigned"; "owned"]; resourceRiskLevel := medium |});
    ("website", {| defaultScopes := ["all"]; resourceRiskLevel := medium |});
    ("announcement", {| defaultScopes := ["all"; "district"]; resourceRiskLevel := low |});
    ("feedback", {| defaultScopes := ["all"; "assigned"]; resourceRiskLevel := low |});
    ("billing", {| defaultScopes := ["all"; "district"]; resourceRiskLevel := critical |});
    ("report", {| defaultScopes := ["all"; "department"; "assigned"]; resourceRiskLevel := medium |});
    ("training", {| defaultScopes := ["all"]; resourceRiskLevel := low |});
    ("equipment", {| defaultScopes := ["all"; "assigned"]; resourceRiskLevel := medium |}) ].

Definition ACTION_DEFINITIONS : list (string * ActionDefinition) :=
  [ ("view", {| riskLevel := low |});
    ("create", {| riskLevel := medium |});
    ("update", {| riskLevel := medium |});
    ("delete", {| riskLevel := critical |});
    ("approve", {| riskLevel := high |});
    ("reject", {| riskLevel := medium |});
    ("assign", {| riskLevel := medium |});
    ("publish", {| riskLevel := medium |});
    ("unpublish", {| riskLevel := medium |});
    ("download", {| riskLevel := low |});
    ("upload", {| riskLevel := medium |});
    ("impersonate", {| riskLevel := critical |});
    ("configure", {| riskLevel := high |});
    ("provision", {| riskLevel := high |});
    ("suspend", {| riskLevel := high |});
    ("restore", {| riskLevel := high |});
    ("audit", {| riskLevel := medium |}) ].

Definition SCOPE_DEFINITIONS : list (string * ScopeDefinition) :=
  [ ("none", {| level := 0 |});
    ("owned", {| level := 1 |});
    ("assigned", {| level := 2 |});
    ("district", {| level := 3 |});
    ("department", {| level := 4 |});
    ("region", {| level := 5 |});
    ("all", {| level := 6 |}) ].

(** [ERROR_MESSAGES.validation] *)
Definition ERROR_MESSAGES_validation : list (string * string) :=
  [ ("required", "This field is required.");
    ("invalidEmail", "Please enter a valid email address.");
    ("passwordTooShort", "Password must be at least 12 characters long.");
    ("invalidFormat", "Invalid format. Please check your input.") ].

Module ConfigHelpers.

Definition getResourceDefinition (resource : string) : Property ResourceDefinition :=
  get RESOURCE_DEFINITIONS resource.

(** [isFeatureEnabled("enableRoleInheritance")] *)
Definition isFeatureEnabled (feature : Features → bool) : bool :=
  feature APP_CONFIG_features.

(** [getErrorMessage("validation", key) || fallback]: the messages of the
    table are non-empty strings; an inherited member is not a string but is
    truthy as well and would be passed to [Error] as it is, which no caller
    of this file asks for. *)
Definition getErrorMessage_validation (key fallback : string) : string :=
  match assoc ERROR_MESSAGES_validation key with
  | Some m => if bool_decide (m = "") then fallback else m
  | None => fallback
  end.

End ConfigHelpers.

(** ** lib/authorization/permission-utils.ts: the claim codec *)

(** The template literal [`${resource}:${action}:${scope}`]. *)
Definition claim_string (resource action scope : string) : string :=
  resource +:+ ":" +:+ action +:+ ":" +:+ scope.

Definition createPermissionClaim (resource action scope : string) : Completion string :=
  if bool_decide (resource = "") || negb (truthy (get RESOURCE_DEFINITIONS resource)) then
    Throw (Error ("Invalid resource type: " +:+ resource))
  else if bool_decide (action = "") || negb (truthy (get ACTION_DEFINITIONS action)) then
    Throw (Error ("Invalid action: " +:+ action))
  else if bool_decide (scope = "") || negb (truthy (get SCOPE_DEFINITIONS scope)) then
    Throw (Error ("Invalid scope: " +:+ scope))
  else
    match ConfigHelpers.getResourceDefinition resource with
    | Own resourceDef =>
        (* the "not typically used" warning goes to the console only *)
        Return (claim_string resource action scope)
    | _ =>
        (* resourceDef.defaultScopes is undefined *)
        Throw (TypeError "Cannot read properties of undefined (reading 'includes')")
    end.

Definition parsePermissionClaim (claim : string) : Completion (string * string * string) :=
  if bool_decide (claim = "") then
    Throw (Error (ConfigHelpers.getErrorMessage_validation "required" "Permission claim is required"))
  else
    match split ":" claim with
    | [resource; action; scope] =>
        if negb (truthy (get RESOURCE_DEFINITIONS resource)) then
          Throw (Error ("Unknown resource type: " +:+ resource))
        else if negb (truthy (get ACTION_DEFINITIONS action)) then
          Throw (Error ("Unknown action: " +:+ action))
        else if negb (truthy (get SCOPE_DEFINITIONS scope)) then
          Throw (Error ("Unknown scope: " +:+ scope))
        else Return (resource, action, scope)
    | _ =>
        Throw (Error (ConfigHelpers.getErrorMessage_validation "invalidFormat"
                        "Permission claim must be in format 'resource:action:scope'"))
    end.

(** [riskOrder = { critical: 4, high: 3, medium: 2, low: 1 }] *)
Definition riskOrder (r : RiskLevel) : Z :=
  match r with
  | critical => 4
  | high => 3
  | medium => 2
  | low => 1
  end.

(** [ACTION_DEFINITIONS[action]?.riskLevel || "low"] *)
Definition action_riskLevel (action : string) : RiskLevel :=
  match get ACTION_DEFINITIONS action with
  | Own d => riskLevel d
  | _ => low
  end.

(** [SCOPE_DEFINITIONS[scope]?.level || 0] *)
Definition scope_level (scope : string) : Z :=
  match get SCOPE_DEFINITIONS scope with
  | Own d => if bool_decide (level d = 0) then 0 else level d
  | _ => 0
  end.

Definition isPermissionStronger (permA permB : string) : bool :=
  match
    try_catch
      (match parsePermissionClaim permA with
       | Throw e => Throw e
       | Return (resA, actA, scopeA) =>
           match parsePermissionClaim permB with
           | Throw e => Throw e
           | Return (resB, actB, scopeB) =>
               if negb (bool_decide (resA = resB)) then Return false
               else if negb (bool_decide (actA = actB)) then
                 let riskA := action_riskLevel actA in
                 let riskB := action_riskLevel actB in
                 Return (bool_decide (riskOrder riskA > riskOrder riskB))
               else
                 let scopeA_level := scope_level scopeA in
                 let scopeB_level := scope_level scopeB in
                 Return (bool_decide (scopeA_level > scopeB_level))
           end
       end)
      (λ _, Return false)
  with
  | Return b => b
  | Throw _ => false
  end.

(** ** Roles and principals (types/authorization.ts) *)

Record Role : Type := {
  role_id : string;
  role_name : string;
  inheritsFrom : option (list string);
  permissions : list string;
  role_isActive : bool;
}.

Record AuthorizedUser : Type := {
  user_id : string;
  roles : list string;
  directPermissions : option (list string);
  user_isActive : bool;
}.

(** ** Loops of the source whose body may run out of recursion budget *)

(** [for (const x of l) { state = body(x, state) }] *)
Fixpoint for_of {A S : Type} (l : list A) (body : A → S → option S) (s : S) : option S :=
  match l with
  | [] => Some s
  | x :: rest =>
      match body x s with
      | Some s' => for_of rest body s'
      | None => None
      end
  end.

(** [for (const x of l) { if (test(x)) return true }; return false] *)
Fixpoint for_of_return_true {A : Type} (l : list A) (test : A → option bool) : option bool :=
  match l with
  | [] => Some false
  | x :: rest =>
      match test x with
      | Some true => Some true
      | Some false => for_of_return_true rest test
      | None => None
      end
  end.

(** [role.inheritsFrom && role.inheritsFrom.length > 0] *)
Definition has_inheritsFrom (role : Role) : bool :=
  match inheritsFrom role with
  | Some parents => bool_decide (0 < length parents)%nat
  | None => false
  end.

(** ** The role resolver *)

(** [roleHasPermission(role, permissionToCheck, allRoles, visited)].
    Nothing in the body of its [try] throws, so the [catch] is never taken. *)
Fixpoint roleHasPermission_rec (fuel : nat) (role : Role) (permissionToCheck : string)
    (allRoles : list Role) (visited : gset string) : option bool :=
  match fuel with
  | O => None
  | S fuel =>
      if bool_decide (role_id role ∈ visited) then Some false
      else
        let visited := {[role_id role]} ∪ visited in
        if negb (role_isActive role) then Some false
        else if includes (permissions role) permissionToCheck then Some true
        else if ConfigHelpers.isFeatureEnabled enableRoleInheritance && has_inheritsFrom role then
          for_of_return_true (default [] (inheritsFrom role))
            (λ parentRoleId,
               match find (λ r, bool_decide (role_id r = parentRoleId)) allRoles with
               | Some parentRole =>
                   (* called with [new Set(visited)], a copy *)
                   roleHasPermission_rec fuel parentRole permissionToCheck allRoles visited
               | None => Some false
               end)
        else Some false
  end.

(** [getRoleEffectivePermissions(role, allRoles, visited)] *)
Fixpoint getRoleEffectivePermissions_rec (fuel : nat) (role : Role)
    (allRoles : list Role) (visited : gset string) : option (list string) :=
  match fuel with
  | O => None
  | S fuel =>
      if bool_decide (role_id role ∈ visited) then Some []
      else
        let visited := {[role_id role]} ∪ visited in
        let effectivePermissions := new_Set (permissions role) in
        if ConfigHelpers.isFeatureEnabled enableRoleInheritance && has_inheritsFrom role then
          for_of (default [] (inheritsFrom role))
            (λ parentRoleId effectivePermissions,
               match find (λ r, bool_decide (role_id r = parentRoleId) && role_isActive r) allRoles with
               | Some parentRole =>
                   match getRoleEffectivePermissions_rec fuel parentRole allRoles visited with
                   | Some parentPermissions =>
                       Some (Set_addAll effectivePermissions parentPermissions)
                   | None => None
                   end
               | None => Some effectivePermissions
               end)
            effectivePermissions
        else Some effectivePermissions
  end.

(** The recursion budget of the entry points: every nested call adds a new
    role id of [allRoles] to [visited]. *)
Definition recursion_budget (allRoles : list Role) : nat := S (S (length allRoles)).

(** The calls with the default [visited = new Set()]. *)
Definition roleHasPermission (role : Role) (permissionToCheck : string)
    (allRoles : list Role) : option bool :=
  roleHasPermission_rec (recursion_budget allRoles) role permissionToCheck allRoles ∅.

Definition getRoleEffectivePermissions (role : Role) (allRoles : list Role)
    : option (list string) :=
  getRoleEffectivePermissions_rec (recursion_budget allRoles) role allRoles ∅.

(** ** Effective permissions of a principal *)

Record EffectivePermissionsOptions : Type := {
  includeInherited : option bool;
  groupByResource : option bool;
  sortByRisk : option bool;
}.

(** The risk rank the sort comparator computes for one claim. *)
Definition claim_riskOrder (claim : string) : Completion Z :=
  match parsePermissionClaim claim with
  | Return (_, action, _) => Return (riskOrder (action_riskLevel action))
  | Throw e => Throw e
  end.

Definition claim_rank (claim : string) : Z :=
  match claim_riskOrder claim with
  | Return n => n
  | Throw _ => 0
  end.

Fixpoint insert_by_risk (x : string) (sorted : list string) : list string :=
  match sorted with
  | [] => [x]
  | y :: rest =>
      if bool_decide (claim_rank x > claim_rank y) then x :: y :: rest
      else y :: insert_by_risk x rest
  end.

(** [permissionsArray.sort((a, b) => riskOrder[riskB] - riskOrder[riskA])]:
    the sort is stable and descending in risk; with two or more elements every
    element is handed to the comparator, which throws on a claim that does
    not parse. *)
Fixpoint comparator_throws (claims : list string) : option Exception :=
  match claims with
  | [] => None
  | claim :: rest =>
      match claim_riskOrder claim with
      | Throw e => Some e
      | Return _ => comparator_throws rest
      end
  end.

Definition sort_by_risk (permissionsArray : list string) : Completion (list string) :=
  if bool_decide (length permissionsArray < 2)%nat then Return permissionsArray
  else
    match comparator_throws permissionsArray with
    | Some e => Throw e
    | None => Return (foldl (λ sorted x, insert_by_risk x sorted) [] permissionsArray)
    end.

Definition getUserEffectivePermissions (user : AuthorizedUser) (allRoles : list Role)
    (options : EffectivePermissionsOptions) : option (list string) :=
  let effectivePermissions := new_Set (default [] (directPermissions user)) in
  let userRoles :=
    List.filter (λ role, includes (roles user) (role_id role) && role_isActive role) allRoles in
  match
    for_of userRoles
      (λ role effectivePermissions,
         match getRoleEffectivePermissions role allRoles with
         | Some rolePermissions => Some (Set_addAll effectivePermissions rolePermissions)
         | None => None
         end)
      effectivePermissions
  with
  | None => None
  | Some permissionsArray =>
      Some (match
              try_catch
                (if bool_decide (sortByRisk options = Some true)
                 then sort_by_risk permissionsArray
                 else Return permissionsArray)
                (λ _, Return [])
            with
            | Return l => l
            | Throw _ => []
            end)
  end.

(** ** The decision cache and the decision engine *)

(** A value of [permissionCache : Map<string, { result, timestamp }>]. *)
Record CacheEntry : Type := {
  result : bool;
  timestamp : Z;
}.

Abbreviation Cache := (gmap string CacheEntry).

Definition CACHE_TTL : Z := 5 * 60 * 1000.

(** The key [`${user.id}:${permissionToCheck}`]. *)
Definition cacheKey (userId permissionToCheck : string) : string :=
  userId +:+ ":" +:+ permissionToCheck.

(** Code that reads and writes the module-level cache, may throw, and may
    run out of recursion budget ([None]). *)
Definition M (A : Type) : Type := Cache → option (Completion A * Cache).

Global Instance M_ret : MRet M := λ A a cache, Some (Return a, cache).

Global Instance M_bind : MBind M := λ A B k m cache,
  match m cache with
  | Some (Return a, cache') => k a cache'
  | Some (Throw e, cache') => Some (Throw e, cache')
  | None => None
  end.

Definition liftC {A} (c : Completion A) : M A := λ cache, Some (c, cache).

Definition liftO {A} (o : option A) : M A := λ cache,
  match o with
  | Some a => Some (Return a, cache)
  | None => None
  end.

Definition try_catchM {A} (body : M A) (handler : Exception → M A) : M A := λ cache,
  match body cache with
  | Some (Throw e, cache') => handler e cache'
  | r => r
  end.

(** [permissionCache.get(key)] *)
Definition permissionCache_get (key : string) : M (option CacheEntry) :=
  λ cache, Some (Return (cache !! key), cache).

(** [permissionCache.set(key, entry)] *)
Definition permissionCache_set (key : string) (entry : CacheEntry) : M unit :=
  λ cache, Some (Return tt, <[key := entry]> cache).

(** [cached && Date.now() - cached.timestamp < CACHE_TTL], then
    [cached.result] *)
Definition live_verdict (now : Z) (cached : option CacheEntry) : option bool :=
  match cached with
  | Some entry =>
      if bool_decide (now - timestamp entry < CACHE_TTL) then Some (result entry) else None
  | None => None
  end.

Record PermissionOptions : Type := {
  logAccess : option bool;
  checkExpiry : option bool;
  useCache : option bool;
}.

(** [options.logAccess] as a condition *)
Definition logAccess_on (options : PermissionOptions) : bool :=
  bool_decide (logAccess options = Some true).

(** [options.useCache !== false] *)
Definition useCache_on (options : PermissionOptions) : bool :=
  negb (bool_decide (useCache options = Some false)).

(** [logAccessAttempt]: builds a log record inside its own [try]/[catch] and
    writes it to the console; it returns nothing. *)
Definition logAccessAttempt (user : option AuthorizedUser)
    (resource action scope : string) (granted : bool) : M unit :=
  if negb (ConfigHelpers.isFeatureEnabled enableAuditLogging) then mret tt
  else try_catchM (mret tt) (λ _, mret tt).

(** [hasPermission(user, resource, action, scope, roles, options)], with
    [now] the value of [Date.now()] during the call. *)
Definition hasPermission (user : option AuthorizedUser) (resource action scope : string)
    (allRoles : list Role) (options : PermissionOptions) (now : Z) : M bool :=
  try_catchM
    (match user with
     | None =>
         (if logAccess_on options
          then logAccessAttempt None resource action scope false else mret tt) ;;
         mret false
     | Some u =>
         if negb (user_isActive u) then
           (if logAccess_on options
            then logAccessAttempt (Some u) resource action scope false else mret tt) ;;
           mret false
         else
           permissionToCheck ← liftC (createPermissionClaim resource action scope);
           hit ←
             (if useCache_on options
              then cached ← permissionCache_get (cacheKey (user_id u) permissionToCheck);
                   mret (live_verdict now cached)
              else mret None);
           match hit with
           | Some verdict => mret verdict
           | None =>
               hasAccess ←
                 (if includes (default [] (directPermissions u)) permissionToCheck
                  then mret true
                  else
                    let userRoles :=
                      List.filter
                        (λ role, includes (roles u) (role_id role) && role_isActive role)
                        allRoles in
                    liftO (for_of_return_true userRoles
                             (λ role, roleHasPermission role permissionToCheck allRoles)));
               (if useCache_on options
                then permissionCache_set (cacheKey (user_id u) permissionToCheck)
                       {| result := hasAccess; timestamp := now |}
                else mret tt) ;;
               (if logAccess_on options
                then logAccessAttempt (Some u) resource action scope hasAccess else mret tt) ;;
               mret hasAccess
           end
     end)
    (λ error,
       (if logAccess_on options
        then logAccessAttempt user resource action scope false else mret tt) ;;
       mret false).

(** The value a [checkAuthorization] promise resolves to. *)
Record AuthorizationResult : Type := {
  authorized : bool;
  error : option string;
}.

Definition checkAuthorization (user : option AuthorizedUser) (resource action scope : string)
    (allRoles : list Role) (options : PermissionOptions) (now : Z) : M AuthorizationResult :=
  try_catchM
    (match user with
     | None => mret {| authorized := false; error := Some "User not authenticated" |}
     | Some u =>
         if negb (user_isActive u) then
           mret {| authorized := false; error := Some "User account is inactive" |}
         else
           authorized ← hasPermission (Some u) resource action scope allRoles options now;
           mret {| authorized := authorized;
                   error := if authorized then None
                            else Some ("Insufficient permissions: "
                                       +:+ claim_string resource action scope) |}
     end)
    (λ _, mret {| authorized := false; error := Some "Authorization check failed" |}).

(** [clearPermissionCache(userId?)]: the cache after the call. *)
Definition clearPermissionCache (userId : option string) (cache : Cache) : Cache :=
  match userId with
  | Some uid =>
      if bool_decide (uid = "") then ∅
      else filter (λ kv, startsWith kv.1 (uid +:+ ":") = false) cache
  | None => ∅
  end.

(** ** Risk levels for the audit records *)

(** [array[index]]: [None] stands for [undefined]. *)
Definition array_get {A} (array : list A) (index : Z) : option A :=
  if bool_decide (0 ≤ index) then array !! Z.to_nat index else None.

(** [Object.keys(riskOrder)] for [riskOrder = { low: 1, medium: 2, high: 3,
    critical: 4 }], the literal of the two functions below. *)
Definition Object_keys_riskOrder : list RiskLevel := [low; medium; high; critical].

(** [RESOURCE_DEFINITIONS[resource]?.riskLevel || "low"] *)
Definition resource_riskLevel (resource : string) : RiskLevel :=
  match get RESOURCE_DEFINITIONS resource with
  | Own d => resourceRiskLevel d
  | _ => low
  end.

(** [determineRiskLevel(action, permission?)]; nothing in it reads [action]. *)
Definition determineRiskLevel (action : string) (permission : option string)
    : option RiskLevel :=
  match permission with
  | None => Some medium
  | Some permission =>
      if bool_decide (permission = "") then Some medium
      else
        match parsePermissionClaim permission with
        | Return (resource, permAction, _) =>
            let resourceRisk := resource_riskLevel resource in
            let actionRisk := action_riskLevel permAction in
            let maxRisk := Z.max (riskOrder resourceRisk) (riskOrder actionRisk) in
            array_get Object_keys_riskOrder (maxRisk - 1)
        | Throw _ => Some medium
        end
  end.

(** [determineAccessRiskLevel(resource, action, scope)] *)
Definition determineAccessRiskLevel (resource action scope : string) : option RiskLevel :=
  let resourceRisk := resource_riskLevel resource in
  let actionRisk := action_riskLevel action in
  let scopeLevel := scope_level scope in
  let scopeRisk :=
    if bool_decide (scopeLevel >= 5) then high
    else if bool_decide (scopeLevel >= 3) then medium
    else low in
  let maxRisk :=
    Z.max (Z.max (riskOrder resourceRisk) (riskOrder actionRisk)) (riskOrder scopeRisk) in
  array_get Object_keys_riskOrder (maxRisk - 1).

(** ** Validation of claims and roles *)

Record ValidationError : Type := {
  field : string;
  message : string;
  code : string;
}.

(** [error instanceof Error ? error.message : "Invalid permission format"];
    both kinds of exception are instances of [Error]. *)
Definition exception_message (e : Exception) : string :=
  match e with
  | Error m => m
  | TypeError m => m
  end.

Definition validatePermissionClaim (claim : string) : list ValidationError :=
  if bool_decide (claim = "") then
    [ {| field := "permission";
         message := ConfigHelpers.getErrorMessage_validation "required"
                      "Permission claim is required";
         code := "REQUIRED" |} ]
  else
    match parsePermissionClaim claim with
    | Return _ => []
    | Throw e =>
        [ {| field := "permission"; message := exception_message e;
             code := "INVALID_FORMAT" |} ]
    end.

(** White space of [String.prototype.trim] among the code units below 256;
    a character of a string stands for one code unit. *)
Definition is_whitespace (c : ascii) : bool :=
  bool_decide (nat_of_ascii c ∈ [9; 10; 11; 12; 13; 32; 160]%nat).

Fixpoint trimStart (s : string) : string :=
  match s with
  | EmptyString => EmptyString
  | String c rest => if is_whitespace c then trimStart rest else s
  end.

Fixpoint trimEnd (s : string) : string :=
  match s with
  | EmptyString => EmptyString
  | String c rest =>
      match trimEnd rest with
      | EmptyString => if is_whitespace c then EmptyString else String c EmptyString
      | rest' => String c rest'
      end
  end.

(** [s.trim()] *)
Definition trim (s : string) : string := trimEnd (trimStart s).

(** [VALIDATION_RULES.role] *)
Record ValidationRule : Type := {
  minLength : nat;
  maxLength : nat;
}.

Definition VALIDATION_RULES_role : list (string * ValidationRule) :=
  [ ("name", {| minLength := 3; maxLength := 100 |});
    ("description", {| minLength := 10; maxLength := 500 |}) ].

(** [ConfigHelpers.getValidationRule("role", field)] *)
Definition getValidationRule_role (field : string) : option ValidationRule :=
  assoc VALIDATION_RULES_role field.

(** The fields of a [Partial<Role>] that [validateRole] reads. *)
Record PartialRole : Type := {
  partial_name : option string;
  partial_description : option string;
  partial_level : option string;
  partial_permissions : option (list string);
}.

Definition validateRole (role : PartialRole) : list ValidationError :=
  let nameRule := getValidationRule_role "name" in
  let name_errors :=
    match partial_name role with
    | None =>
        [ {| field := "name"; message := "Role name is required"; code := "REQUIRED" |} ]
    | Some name =>
        if bool_decide (trim name = "") then
          [ {| field := "name"; message := "Role name is required"; code := "REQUIRED" |} ]
        else
          match nameRule with
          | Some rule =>
              if bool_decide (String.length name < minLength rule)%nat then
                [ {| field := "name";
                     message := "Role name must be at least " +:+ pretty (minLength rule)
                                +:+ " characters";
                     code := "MIN_LENGTH" |} ]
              else if bool_decide (maxLength rule < String.length name)%nat then
                [ {| field := "name";
                     message := "Role name must not exceed " +:+ pretty (maxLength rule)
                                +:+ " characters";
                     code := "MAX_LENGTH" |} ]
              else []
          | None => []
          end
    end in
  let descRule := getValidationRule_role "description" in
  let description_errors :=
    match partial_description role with
    | None =>
        [ {| field := "description"; message := "Role description is required";
             code := "REQUIRED" |} ]
    | Some description =>
        if bool_decide (trim description = "") then
          [ {| field := "description"; message := "Role description is required";
               code := "REQUIRED" |} ]
        else
          match descRule with
          | Some rule =>
              if bool_decide (String.length description < minLength rule)%nat then
                [ {| field := "description";
                     message := "Description must be at least " +:+ pretty (minLength rule)
                                +:+ " characters";
                     code := "MIN_LENGTH" |} ]
              else []
          | None => []
          end
    end in
  let level_errors :=
    match partial_level role with
    | Some l =>
        if bool_decide (l = "") then
          [ {| field := "level"; message := "Role level is required"; code := "REQUIRED" |} ]
        else []
    | None =>
        [ {| field := "level"; message := "Role level is required"; code := "REQUIRED" |} ]
    end in
  let permission_errors :=
    match partial_permissions role with
    | Some permissions =>
        concat (imap (λ (index : nat) (permission : string),
                       (λ err, {| field := "permissions." +:+ pretty index;
                                  message := message err;
                                  code := code err |})
                       <$> validatePermissionClaim permission)
                 permissions)
    | None => []
    end in
  name_errors ++ description_errors ++ level_errors ++ permission_errors.

(** ** Cache statistics *)

Record CacheStats : Type := {
  stats_size : nat;
  hitRate : Z;
  oldestEntry : Z;
}.

(** [getCacheStats()], with [now] the value of [Date.now()].  The loop keeps
    the smallest timestamp below [now]; the order of the entries does not
    matter for it. *)
Definition getCacheStats (now : Z) (cache : Cache) : CacheStats :=
  let oldestTimestamp :=
    map_fold (λ _ value oldest,
                if bool_decide (timestamp value < oldest) then timestamp value else oldest)
      now cache in
  {| stats_size := size cache; hitRate := 0; oldestEntry := now - oldestTimestamp |}.

(** ** Example data *)

Module Examples.

(** Two of the demo records of the permissions demo page. *)
Definition service_specialist : Role := {|
  role_id := "service-specialist";
  role_name := "Service Specialist";
  inheritsFrom := None;
  permissions :=
    [ "member:view:assigned"; "member:update:assigned"; "service:view:assigned";
      "service:update:assigned"; "application:view:assigned";
      "application:update:assigned"; "user:view:assigned"; "feedback:view:all";
      "feedback:update:assigned"; "equipment:view:assigned" ];
  role_isActive := true;
|}.

Definition robert_wilson : AuthorizedUser := {|
  user_id := "user-inact-006";
  roles := ["service-specialist"];
  directPermissions := Some [];
  user_isActive := false;
|}.

(** An active principal without roles or direct permissions. *)
Definition sarah : AuthorizedUser := {|
  user_id := "user-exec-001";
  roles := [];
  directPermissions := None;
  user_isActive := true;
|}.

(** A retired role that still lists a permission. *)
Definition retired : Role := {|
  role_id := "retired";
  role_name := "Retired";
  inheritsFrom := None;
  permissions := ["billing:view:all"];
  role_isActive := false;
|}.

(** Two roles that share an id, the inactive one first, and a role that
    inherits from that id. *)
Definition auditor_old : Role := {|
  role_id := "auditor";
  role_name := "Auditor (old)";
  inheritsFrom := None;
  permissions := [];
  role_isActive := false;
|}.

Definition auditor_new : Role := {|
  role_id := "auditor";
  role_name := "Auditor";
  inheritsFrom := None;
  permissions := ["report:view:all"];
  role_isActive := true;
|}.

Definition finance : Role := {|
  role_id := "finance";
  role_name := "Finance";
  inheritsFrom := Some ["auditor"];
  permissions := ["billing:view:all"];
  role_isActive := true;
|}.

(** Two roles that inherit from each other. *)
Definition tech_director : Role := {|
  role_id := "tech-director";
  role_name := "Technology Director";
  inheritsFrom := Some ["helpdesk"];
  permissions := ["service:configure:all"; "service:view:all"];
  role_isActive := true;
|}.

Definition helpdesk : Role := {|
  role_id := "helpdesk";
  role_name := "Help Desk";
  inheritsFrom := Some ["tech-director"];
  permissions := ["feedback:view:all"; "service:view:all"];
  role_isActive := true;
|}.

Definition default_options : PermissionOptions :=
  {| logAccess := None; checkExpiry := None; useCache := None |}.

Definition no_options : EffectivePermissionsOptions :=
  {| includeInherited := None; groupByResource := None; sortByRisk := None |}.

(** A cache holding one verdict for the principal "a" and one for the
    principal "a:b". *)
Definition two_principals : Cache :=
  <[cacheKey "a:b" "member:view:all" := {| result := true; timestamp := 0 |}]>
    (<[cacheKey "a" "member:view:all" := {| result := false; timestamp := 0 |}]> ∅).

End Examples.

(** ** Vocabulary of the statements *)

(** [c] occurs in [s]. *)
Fixpoint occurs (c : ascii) (s : string) : bool :=
  match s with
  | EmptyString => false
  | String c' rest => bool_decide (c' = c) || occurs c rest
  end.

(** [l.join(sep)] *)
Fixpoint join (sep : ascii) (l : list string) : string :=
  match l with
  | [] => ""
  | [x] => x
  | x :: rest => x +:+ String sep (join sep rest)
  end.

(** [claim] is made of exactly the three colon-delimited segments
    [resource], [action] and [scope] (which may be empty). *)
Definition three_segments (claim resource action scope : string) : Prop :=
  claim = claim_string resource action scope
  ∧ occurs ":" resource = false ∧ occurs ":" action = false ∧ occurs ":" scope = false.

(** [key] is in the enumeration that [obj] defines. *)
Definition enumerated {A} (obj : list (string * A)) (key : string) : Prop :=
  key ∈ obj.*1.

(** [obj[key]] is truthy: an entry of the table, or a member every object
    inherits. *)
Definition resolves {A} (obj : list (string * A)) (key : string) : Prop :=
  enumerated obj key ∨ key ∈ Object_prototype.

Global Instance resolves_dec {A} (obj : list (string * A)) key : Decision (resolves obj key).
Proof. unfold resolves, enumerated. apply _. Defined.

(** A triple whose three components are in their enumerations. *)
Definition valid_triple (resource action scope : string) : Prop :=
  resource ∈ ResourceType ∧ action ∈ AllPermissionActions ∧ scope ∈ PermissionScope.

(** The risk order of the spec: critical > high > medium > low. *)
Definition riskier (a b : RiskLevel) : bool :=
  match a, b with
  | critical, (high | medium | low) => true
  | high, (medium | low) => true
  | medium, low => true
  | _, _ => false
  end.

(** The scope breadth of the spec:
    none=0 < owned=1 < assigned=2 < district=3 < department=4 < region=5 < all=6. *)
Definition spec_scope_breadth (scope : string) : Z :=
  if bool_decide (scope = "none") then 0
  else if bool_decide (scope = "owned") then 1
  else if bool_decide (scope = "assigned") then 2
  else if bool_decide (scope = "district") then 3
  else if bool_decide (scope = "department") then 4
  else if bool_decide (scope = "region") then 5
  else if bool_decide (scope = "all") then 6
  else 0.

(** The ids of the roles of a role set, and how many of them a traversal
    standing at [role] with the set [visited] has not entered yet. *)
Definition role_ids (allRoles : list Role) : gset string :=
  list_to_set (role_id <$> allRoles).

Definition unvisited (allRoles : list Role) (role : Role) (visited : gset string) : nat :=
  size (role_ids allRoles ∖ ({[role_id role]} ∪ visited)).

(** A call of the decision entry point that ends before the claim is looked
    up: no principal, an inactive principal, or a triple that
    [createPermissionClaim] rejects. *)
Definition ends_early (user : option AuthorizedUser) (resource action scope : string) : Prop :=
  match user with
  | None => True
  | Some u =>
      user_isActive u = false ∨ ∃ e, createPermissionClaim resource action scope = Throw e
  end.

(** [parent] is a role that the traversal of the effective permissions
    enters from [role]: the first active role of the role set whose id is
    listed in [role.inheritsFrom]. *)
Definition inherits (allRoles : list Role) (role parent : Role) : Prop :=
  ∃ parentRoleId,
    parentRoleId ∈ default [] (inheritsFrom role)
    ∧ find (λ r, bool_decide (role_id r = parentRoleId) && role_isActive r) allRoles
      = Some parent.

(** [target] is reached from [role] along [inherits] steps through roles
    whose ids are not in [visited]. *)
Inductive reaches_avoiding (allRoles : list Role) (visited : gset string)
  : Role → Role → Prop :=
| reaches_here role :
    role_id role ∉ visited → reaches_avoiding allRoles visited role role
| reaches_step role parent target :
    role_id role ∉ visited →
    inherits allRoles role parent →
    reaches_avoiding allRoles visited parent target →
    reaches_avoiding allRoles visited role target.

(** No other active role of the role set answers to the id of [role]: the
    first active role with that id, if there is one, is [role] itself. *)
Definition answers_to_own_id (allRoles : list Role) (role : Role) : Prop :=
  ∀ other,
    find (λ r, bool_decide (role_id r = role_id role) && role_isActive r) allRoles
    = Some other →
    other = role.

(** Every character of [s] is white space. *)
Fixpoint blank (s : string) : bool :=
  match s with
  | EmptyString => true
  | String c rest => is_whitespace c && blank rest
  end.

(** The roles of the role set that [hasPermission] and
    [getUserEffectivePermissions] consult for a principal. *)
Definition roles_of (user : AuthorizedUser) (allRoles : list Role) : list Role :=
  List.filter (λ role, includes (roles user) (role_id role) && role_isActive role) allRoles.

(** What [hasPermission] computes for an active principal and a claim when
    it does not answer from the cache: the direct permissions first, then the
    principal's roles. *)
Definition fresh_verdict (user : AuthorizedUser) (claim : string) (allRoles : list Role)
    : option bool :=
  if includes (default [] (directPermissions user)) claim then Some true
  else for_of_return_true (roles_of user allRoles)
         (λ role, roleHasPermission role claim allRoles).

(** The error values of the codec. *)
Definition Required : Exception := Error "This field is required.".
Definition InvalidFormat : Exception := Error "Invalid format. Please check your input.".
Definition UnknownResource (segment : string) : Exception :=
  Error ("Unknown resource type: " +:+ segment).
Definition UnknownAction (segment : string) : Exception :=
  Error ("Unknown action: " +:+ segment).
Definition UnknownScope (segment : string) : Exception :=
  Error ("Unknown scope: " +:+ segment).

(** * Properties *)

(** ** Strings *)

Section strings.
Context (sep : ascii).

Lemma append_cons c (s t : string) : String c s +:+ t = String c (s +:+ t).
Proof. reflexivity. Qed.

Lemma append_nil (t : string) : "" +:+ t = t.
Proof. reflexivity. Qed.

Lemma split_not_nil s : split sep s ≠ [].
Proof.
  destruct s as [|c s]; simpl; [done|].
  case_bool_decide; [done|]. by destruct (split sep s).
Qed.

(** Splitting a separator-free string gives the string itself. *)
Lemma split_free s : occurs sep s = false → split sep s = [s].
Proof.
  induction s as [|c s IH]; simpl; [done|].
  intros [Hc Hs]%orb_false_iff. apply bool_decide_eq_false in Hc.
  rewrite bool_decide_false by done. by rewrite IH.
Qed.

(** Splitting peels off a separator-free first segment. *)
Lemma split_append head rest :
  occurs sep head = false →
  split sep (head +:+ String sep rest) = head :: split sep rest.
Proof.
  induction head as [|c head IH]; simpl.
  - intros _. change ("" +:+ String sep rest) with (String sep rest).
    simpl. by rewrite bool_decide_true.
  - intros [Hc Hs]%orb_false_iff. apply bool_decide_eq_false in Hc.
    rewrite bool_decide_false by done. by rewrite IH.
Qed.

(** [split] and [join] are inverse to each other. *)
Lemma join_split s : join sep (split sep s) = s.
Proof.
  induction s as [|c s IH]; simpl; [done|].
  case_bool_decide as Hc.
  - subst c. pose proof (split_not_nil s) as Hne.
    destruct (split sep s) as [|x l] eqn:E; [done|].
    change (join sep ("" :: x :: l)) with ("" +:+ String sep (join sep (x :: l))).
    by rewrite IH.
  - pose proof (split_not_nil s) as Hne.
    destruct (split sep s) as [|x l] eqn:E; [done|].
    destruct l as [|y l]; simpl in *; [by rewrite IH|].
    rewrite append_cons. by rewrite IH.
Qed.

Lemma split_segments_free s : Forall (λ x, occurs sep x = false) (split sep s).
Proof.
  induction s as [|c s IH]; simpl; [by repeat constructor|].
  case_bool_decide as Hc; [by constructor|].
  pose proof (split_not_nil s) as Hne.
  destruct (split sep s) as [|x l]; [done|].
  apply Forall_cons in IH as [Hx Hl]. constructor; [|done]. simpl.
  by rewrite bool_decide_false.
Qed.

End strings.

(** A string splits into three segments exactly when it is the three
    colon-free segments joined by two colons. *)
Lemma split_three claim resource action scope :
  split ":" claim = [resource; action; scope] ↔ three_segments claim resource action scope.
Proof.
  unfold three_segments, claim_string. split.
  - intros Hs. pose proof (join_split ":" claim) as Hj.
    pose proof (split_segments_free ":" claim) as Hf.
    rewrite Hs in Hj, Hf. simpl in Hj.
    apply Forall_cons in Hf as [? Hf]. apply Forall_cons in Hf as [? Hf].
    apply Forall_cons in Hf as [? _]. done.
  - intros (-> & Hr & Ha & Hsc).
    change (split ":" (resource +:+ String ":" (action +:+ String ":" scope))
            = [resource; action; scope]).
    rewrite !split_append by done. by rewrite split_free.
Qed.

Lemma claim_string_not_empty resource action scope : claim_string resource action scope ≠ "".
Proof. unfold claim_string. destruct resource; done. Qed.

(** ** The definition tables *)

Lemma assoc_is_Some {A} (obj : list (string * A)) key :
  is_Some (assoc obj key) ↔ enumerated obj key.
Proof.
  unfold enumerated. induction obj as [|[k a] obj IH]; simpl.
  - split; [by intros [? ?]|by intros ?%elem_of_nil].
  - rewrite elem_of_cons. case_bool_decide as Hk.
    + split; [by left|by eauto].
    + rewrite IH. split; [by right|]. by intros [?|?].
Qed.

Lemma get_Own {A} (obj : list (string * A)) key :
  enumerated obj key → ∃ d, get obj key = Own d.
Proof. intros [d Hd]%assoc_is_Some. exists d. unfold get. by rewrite Hd. Qed.

Lemma truthy_get {A} (obj : list (string * A)) key :
  truthy (get obj key) = bool_decide (resolves obj key).
Proof.
  unfold get, resolves, includes.
  destruct (assoc obj key) as [d|] eqn:Hd; simpl.
  - symmetry. apply bool_decide_eq_true. left. apply assoc_is_Some. by exists d.
  - assert (¬ enumerated obj key) as Hn.
    { intros [d Hd']%assoc_is_Some. congruence. }
    case_bool_decide as Hp; simpl; symmetry.
    + apply bool_decide_eq_true. by right.
    + apply bool_decide_eq_false. tauto.
Qed.

(** The tables define exactly the members of the three union types. *)
Lemma RESOURCE_DEFINITIONS_keys key :
  enumerated RESOURCE_DEFINITIONS key ↔ key ∈ ResourceType.
Proof. done. Qed.

Lemma ACTION_DEFINITIONS_keys key :
  enumerated ACTION_DEFINITIONS key ↔ key ∈ AllPermissionActions.
Proof. done. Qed.

Lemma SCOPE_DEFINITIONS_keys key :
  enumerated SCOPE_DEFINITIONS key ↔ key ∈ PermissionScope.
Proof.
  unfold enumerated, PermissionScope. simpl. rewrite !elem_of_cons, !elem_of_nil. tauto.
Qed.

(** Tokens of the enumerations are non-empty and contain no colon. *)
Lemma enumeration_tokens :
  Forall (λ key, occurs ":" key = false ∧ key ≠ "")
         (ResourceType ++ AllPermissionActions ++ PermissionScope).
Proof. apply (bool_decide_unpack _). by vm_compute. Qed.

Lemma valid_triple_tokens resource action scope :
  valid_triple resource action scope →
  (occurs ":" resource = false ∧ resource ≠ "")
  ∧ (occurs ":" action = false ∧ action ≠ "")
  ∧ (occurs ":" scope = false ∧ scope ≠ "").
Proof.
  intros (Hr & Ha & Hs). pose proof enumeration_tokens as H.
  rewrite Forall_forall in H.
  repeat split; apply H; rewrite !elem_of_app; auto.
Qed.

Lemma valid_triple_resolves resource action scope :
  valid_triple resource action scope →
  resolves RESOURCE_DEFINITIONS resource
  ∧ resolves ACTION_DEFINITIONS action
  ∧ resolves SCOPE_DEFINITIONS scope.
Proof.
  intros (Hr & Ha & Hs). repeat split; left.
  - by apply RESOURCE_DEFINITIONS_keys.
  - by apply ACTION_DEFINITIONS_keys.
  - by apply SCOPE_DEFINITIONS_keys.
Qed.

(** ** The claim codec *)

(** What [parsePermissionClaim] does on a string made of three segments. *)
Lemma parsePermissionClaim_three resource action scope :
  occurs ":" resource = false → occurs ":" action = false → occurs ":" scope = false →
  parsePermissionClaim (claim_string resource action scope) =
    if decide (¬ resolves RESOURCE_DEFINITIONS resource) then Throw (UnknownResource resource)
    else if decide (¬ resolves ACTION_DEFINITIONS action) then Throw (UnknownAction action)
    else if decide (¬ resolves SCOPE_DEFINITIONS scope) then Throw (UnknownScope scope)
    else Return (resource, action, scope).
Proof.
  intros Hr Ha Hs. unfold parsePermissionClaim.
  rewrite bool_decide_false by apply claim_string_not_empty.
  assert (split ":" (claim_string resource action scope) = [resource; action; scope]) as ->.
  { by apply split_three. }
  rewrite !truthy_get.
  repeat (case_bool_decide; simpl; case_decide; try tauto).
Qed.

Lemma parsePermissionClaim_valid resource action scope :
  valid_triple resource action scope →
  parsePermissionClaim (claim_string resource action scope) = Return (resource, action, scope).
Proof.
  intros Hv.
  destruct (valid_triple_tokens _ _ _ Hv) as ((Hr & _) & (Ha & _) & (Hs & _)).
  destruct (valid_triple_resolves _ _ _ Hv) as (Rr & Ra & Rs).
  rewrite parsePermissionClaim_three by done.
  repeat (case_decide; try tauto).
Qed.

Lemma createPermissionClaim_valid resource action scope :
  valid_triple resource action scope →
  createPermissionClaim resource action scope = Return (claim_string resource action scope).
Proof.
  intros Hv.
  destruct (valid_triple_tokens _ _ _ Hv) as ((_ & Hr) & (_ & Ha) & (_ & Hs)).
  destruct (valid_triple_resolves _ _ _ Hv) as (Rr & Ra & Rs).
  unfold createPermissionClaim, ConfigHelpers.getResourceDefinition.
  rewrite !truthy_get.
  rewrite !(bool_decide_false (_ = "")) by done.
  rewrite !(bool_decide_true (resolves _ _)) by done. simpl.
  destruct Hv as (Hv & _). apply RESOURCE_DEFINITIONS_keys in Hv.
  destruct (get_Own _ _ Hv) as [d ->]. done.
Qed.

(** C2.  Round trip: for every valid triple [createPermissionClaim] returns a
    claim string, and [parsePermissionClaim] of that string returns exactly
    the triple. *)
Theorem parse_create_roundtrip resource action scope :
  valid_triple resource action scope →
  ∃ claim,
    createPermissionClaim resource action scope = Return claim
    ∧ parsePermissionClaim claim = Return (resource, action, scope).
Proof.
  intros Hv. exists (claim_string resource action scope). split.
  - by apply createPermissionClaim_valid.
  - by apply parsePermissionClaim_valid.
Qed.

Lemma parse_create_roundtrip_witness :
  ∃ claim,
    createPermissionClaim "service" "configure" "all" = Return claim
    ∧ parsePermissionClaim claim = Return ("service", "configure", "all").
Proof.
  apply parse_create_roundtrip. unfold valid_triple.
  repeat split; apply (bool_decide_unpack _); by vm_compute.
Defined.

(** C5 (as amended).  [parsePermissionClaim] on every input string:
    the empty string fails with the "required" error; a non-empty string
    fails with the format error exactly when it is not made of three
    colon-delimited segments; a string of three segments (empty ones
    included), none of them the name of a member every object inherits,
    fails with the unknown-resource, unknown-action or unknown-scope error
    naming the first segment, in that order, that is outside its
    enumeration, and returns the three segments when there is none. *)
Theorem parsePermissionClaim_outcome (claim : string) :
  (claim = "" → parsePermissionClaim claim = Throw Required)
  ∧ (parsePermissionClaim claim = Throw InvalidFormat ↔
       claim ≠ "" ∧ ¬ ∃ resource action scope, three_segments claim resource action scope)
  ∧ (∀ resource action scope,
       three_segments claim resource action scope →
       resource ∉ Object_prototype → action ∉ Object_prototype →
       scope ∉ Object_prototype →
       parsePermissionClaim claim =
         if decide (resource ∉ ResourceType) then Throw (UnknownResource resource)
         else if decide (action ∉ AllPermissionActions) then Throw (UnknownAction action)
         else if decide (scope ∉ PermissionScope) then Throw (UnknownScope scope)
         else Return (resource, action, scope)).
Proof.
  split; [by intros ->|]. split.
  - split.
    + intros Hp. split.
      * intros ->. by vm_compute in Hp.
      * intros (r & a & s & Hseg).
        destruct Hseg as (-> & Hr & Ha & Hs).
        rewrite parsePermissionClaim_three in Hp by done.
        repeat case_decide; by vm_compute in Hp.
    + intros [Hne Hno]. unfold parsePermissionClaim.
      rewrite bool_decide_false by done.
      destruct (split ":" claim) as [|r [|a [|s [|x l]]]] eqn:Hs; try done.
      exfalso. apply Hno. exists r, a, s. by apply split_three.
  - intros r a s (-> & Hr & Ha & Hs) Pr Pa Ps.
    rewrite parsePermissionClaim_three by done.
    pose proof (RESOURCE_DEFINITIONS_keys r) as Kr.
    pose proof (ACTION_DEFINITIONS_keys a) as Ka.
    pose proof (SCOPE_DEFINITIONS_keys s) as Ks.
    unfold resolves.
    repeat case_decide; try done; exfalso; tauto.
Qed.

Lemma parsePermissionClaim_outcome_witness :
  parsePermissionClaim "" = Throw Required
  ∧ parsePermissionClaim "member:view" = Throw InvalidFormat
  ∧ parsePermissionClaim "badresource:view:all" = Throw (UnknownResource "badresource")
  ∧ parsePermissionClaim "member:view:all" = Return ("member", "view", "all").
Proof.
  assert (∀ x : string, bool_decide (x ∉ Object_prototype) = true → x ∉ Object_prototype)
    as Hnot by (intros x; apply bool_decide_eq_true).
  split; [by apply (proj1 (parsePermissionClaim_outcome ""))|].
  split.
  { apply (proj1 (proj2 (parsePermissionClaim_outcome "member:view"))). split; [done|].
    intros (r & a & s & Hseg). apply split_three in Hseg. by vm_compute in Hseg. }
  split.
  - rewrite (proj2 (proj2 (parsePermissionClaim_outcome "badresource:view:all"))
               "badresource" "view" "all");
      [by vm_compute|by apply split_three|by apply Hnot; vm_compute..].
  - rewrite (proj2 (proj2 (parsePermissionClaim_outcome "member:view:all"))
               "member" "view" "all");
      [by vm_compute|by apply split_three|by apply Hnot; vm_compute..].
Defined.

(** C5, counterexample.  The string "::" does not split into three non-empty
    segments, yet [parsePermissionClaim] does not fail with the format error
    on it: it fails with the unknown-resource error; and the empty string
    fails with the "required" error. *)
Lemma parsePermissionClaim_empty_segments :
  split ":" "::" = [""; ""; ""]
  ∧ parsePermissionClaim "::" = Throw (UnknownResource "")
  ∧ parsePermissionClaim "::" ≠ Throw InvalidFormat
  ∧ parsePermissionClaim "" ≠ Throw InvalidFormat.
Proof. by vm_compute. Qed.

(** A segment outside its enumeration may still be accepted: the tables
    are plain objects, and the name of an inherited member resolves. *)
Lemma parsePermissionClaim_inherited_member :
  ("constructor" ∉ ResourceType)
  ∧ parsePermissionClaim "constructor:view:all" = Return ("constructor", "view", "all").
Proof. split; [|by vm_compute]. apply (bool_decide_unpack _). by vm_compute. Qed.

(** ** The scope and risk comparator *)

Lemma isPermissionStronger_parsed permA permB resA actA scopeA resB actB scopeB :
  parsePermissionClaim permA = Return (resA, actA, scopeA) →
  parsePermissionClaim permB = Return (resB, actB, scopeB) →
  isPermissionStronger permA permB =
    if decide (resA ≠ resB) then false
    else if decide (actA ≠ actB)
    then bool_decide (riskOrder (action_riskLevel actA) > riskOrder (action_riskLevel actB))
    else bool_decide (scope_level scopeA > scope_level scopeB).
Proof.
  intros HA HB. unfold isPermissionStronger. rewrite HA, HB. simpl.
  repeat (case_bool_decide; simpl); repeat case_decide; done.
Qed.

Lemma riskOrder_riskier a b :
  bool_decide (riskOrder a > riskOrder b) = riskier a b.
Proof. by destruct a, b. Qed.

(** The levels of [SCOPE_DEFINITIONS] are the breadth ranks of the spec. *)
Lemma scope_level_breadth scope :
  scope ∈ PermissionScope → scope_level scope = spec_scope_breadth scope.
Proof.
  intros H. unfold PermissionScope in H.
  repeat (apply elem_of_cons in H as [->|H]; [by vm_compute|]).
  by apply elem_of_nil in H.
Qed.

(** C7.  On two valid claims [isPermissionStronger] is false when the
    resources differ; with equal resources and different actions it is true
    exactly when the first action's risk is strictly higher in the order
    critical > high > medium > low; with equal resources and actions it is
    true exactly when the first scope is strictly broader in the order
    none=0 < owned=1 < assigned=2 < district=3 < department=4 < region=5 < all=6. *)
Theorem isPermissionStronger_valid resA actA scopeA resB actB scopeB :
  valid_triple resA actA scopeA →
  valid_triple resB actB scopeB →
  let permA := claim_string resA actA scopeA in
  let permB := claim_string resB actB scopeB in
  (resA ≠ resB → isPermissionStronger permA permB = false)
  ∧ (resA = resB → actA ≠ actB →
     isPermissionStronger permA permB
     = riskier (action_riskLevel actA) (action_riskLevel actB))
  ∧ (resA = resB → actA = actB →
     isPermissionStronger permA permB
     = bool_decide (spec_scope_breadth scopeB < spec_scope_breadth scopeA)).
Proof.
  intros HA HB permA permB.
  pose proof (parsePermissionClaim_valid _ _ _ HA) as PA.
  pose proof (parsePermissionClaim_valid _ _ _ HB) as PB.
  pose proof (isPermissionStronger_parsed _ _ _ _ _ _ _ _ PA PB) as Hs.
  fold permA permB in Hs. rewrite Hs.
  destruct HA as (_ & _ & HsA), HB as (_ & _ & HsB).
  split; [|split].
  - intros Hr. by rewrite decide_True.
  - intros Hr Ha. rewrite decide_False by (by intros []).
    rewrite decide_True by done. apply riskOrder_riskier.
  - intros Hr Ha. rewrite !decide_False by (by intros []).
    rewrite !scope_level_breadth by done.
    apply bool_decide_ext. lia.
Qed.

Lemma isPermissionStronger_valid_witness :
  isPermissionStronger "member:view:all" "service:view:all" = false
  ∧ isPermissionStronger "member:delete:none" "member:view:all" = true
  ∧ isPermissionStronger "member:view:all" "member:view:assigned" = true.
Proof.
  assert (valid_triple "member" "view" "all") as H1
    by (repeat split; apply (bool_decide_unpack _); by vm_compute).
  assert (valid_triple "service" "view" "all") as H2
    by (repeat split; apply (bool_decide_unpack _); by vm_compute).
  assert (valid_triple "member" "delete" "none") as H3
    by (repeat split; apply (bool_decide_unpack _); by vm_compute).
  assert (valid_triple "member" "view" "assigned") as H4
    by (repeat split; apply (bool_decide_unpack _); by vm_compute).
  destruct (isPermissionStronger_valid _ _ _ _ _ _ H1 H2) as (W1 & _ & _).
  destruct (isPermissionStronger_valid _ _ _ _ _ _ H3 H1) as (_ & W2 & _).
  destruct (isPermissionStronger_valid _ _ _ _ _ _ H1 H4) as (_ & _ & W3).
  split; [|split].
  - by apply W1.
  - by apply (eq_trans (W2 eq_refl ltac:(done))).
  - by apply (eq_trans (W3 eq_refl eq_refl)).
Defined.

(** C10.  [isPermissionStronger] is irreflexive and asymmetric, on valid
    claims and on every other pair of strings as well: no claim is stronger
    than itself, and two claims are never each stronger than the other. *)
Theorem isPermissionStronger_strict (permA permB : string) :
  isPermissionStronger permA permA = false
  ∧ ¬ (isPermissionStronger permA permB = true ∧ isPermissionStronger permB permA = true).
Proof.
  unfold isPermissionStronger, try_catch.
  destruct (parsePermissionClaim permA) as [[[resA actA] scopeA]|eA];
    destruct (parsePermissionClaim permB) as [[[resB actB] scopeB]|eB]; simpl;
    (split; [|intros [H1 H2]]);
    repeat (case_bool_decide; simpl in * );
    try done; try lia; congruence.
Qed.

(** ** Sets kept in insertion order *)

Lemma elem_of_Set_add s x y : y ∈ Set_add s x ↔ y ∈ s ∨ y = x.
Proof.
  unfold Set_add, includes. case_bool_decide as Hx.
  - split; [by left|]. by intros [?| ->].
  - rewrite elem_of_app, list_elem_of_singleton. done.
Qed.

Lemma NoDup_Set_add s x : NoDup s → NoDup (Set_add s x).
Proof.
  unfold Set_add, includes. intros Hs. case_bool_decide as Hx; [done|].
  apply NoDup_app. split; [done|]. split; [|apply NoDup_singleton].
  intros y Hy ->%list_elem_of_singleton. done.
Qed.

Lemma elem_of_Set_addAll l s y : y ∈ Set_addAll s l ↔ y ∈ s ∨ y ∈ l.
Proof.
  unfold Set_addAll. revert s. induction l as [|x l IH]; intros s; simpl.
  - rewrite elem_of_nil. tauto.
  - rewrite IH, elem_of_Set_add, elem_of_cons. tauto.
Qed.

Lemma NoDup_Set_addAll l s : NoDup s → NoDup (Set_addAll s l).
Proof.
  unfold Set_addAll. revert s. induction l as [|x l IH]; intros s Hs; simpl; [done|].
  by apply IH, NoDup_Set_add.
Qed.

Lemma elem_of_new_Set l y : y ∈ new_Set l ↔ y ∈ l.
Proof. unfold new_Set. rewrite elem_of_Set_addAll, elem_of_nil. tauto. Qed.

Lemma NoDup_new_Set l : NoDup (new_Set l).
Proof. apply NoDup_Set_addAll, NoDup_nil_2. Qed.

(** ** Loops *)

Lemma find_Some {A} (pred : A → bool) l x :
  find pred l = Some x → x ∈ l ∧ pred x = true.
Proof.
  induction l as [|y l IH]; simpl; [done|].
  destruct (pred y) eqn:Hy.
  - intros [= ->]. split; [by left|done].
  - intros [? ?]%IH. split; [by right|done].
Qed.

Lemma find_None {A} (pred : A → bool) l :
  find pred l = None ↔ ∀ x, x ∈ l → pred x = false.
Proof.
  induction l as [|y l IH]; simpl.
  - split; [by intros _ x ?%elem_of_nil|done].
  - destruct (pred y) eqn:Hy.
    + split; [done|]. intros H. specialize (H y (list_elem_of_here _ _)). congruence.
    + rewrite IH. split.
      * intros H x [->|?]%elem_of_cons; auto.
      * intros H x Hx. apply H. by right.
Qed.

(** The first element satisfying [p] also is the first one satisfying
    [p] and [q], when it satisfies [q]. *)
Lemma find_and {A} (p q : A → bool) l x :
  find p l = Some x → q x = true → find (λ y, p y && q y) l = Some x.
Proof.
  induction l as [|y l IH]; simpl; [done|].
  destruct (p y) eqn:Hy; simpl.
  - intros [= ->] ->. done.
  - auto.
Qed.

Lemma for_of_is_Some {A S} (l : list A) (body : A → S → option S) s :
  (∀ x s', x ∈ l → is_Some (body x s')) → is_Some (for_of l body s).
Proof.
  revert s. induction l as [|x l IH]; intros s Hb; simpl; [by eexists|].
  destruct (Hb x s) as [s' ->]; [by left|].
  apply IH. intros y s'' Hy. apply Hb. by right.
Qed.

Lemma for_of_return_true_is_Some {A} (l : list A) (test : A → option bool) :
  (∀ x, x ∈ l → is_Some (test x)) → is_Some (for_of_return_true l test).
Proof.
  induction l as [|x l IH]; intros Hb; simpl; [by eexists|].
  destruct (Hb x) as [[] ->]; [by left|by eexists|].
  apply IH. intros y Hy. apply Hb. by right.
Qed.

(** More budget does not change a result. *)
Lemma for_of_mono {A S} (l : list A) (body body' : A → S → option S) s r :
  (∀ x s' r', body x s' = Some r' → body' x s' = Some r') →
  for_of l body s = Some r → for_of l body' s = Some r.
Proof.
  intros Hb. revert s. induction l as [|x l IH]; intros s; simpl; [done|].
  destruct (body x s) as [s'|] eqn:Hx; [|done].
  rewrite (Hb _ _ _ Hx). apply IH.
Qed.

Lemma for_of_return_true_mono {A} (l : list A) (test test' : A → option bool) r :
  (∀ x r', test x = Some r' → test' x = Some r') →
  for_of_return_true l test = Some r → for_of_return_true l test' = Some r.
Proof.
  intros Hb. induction l as [|x l IH]; simpl; [done|].
  destruct (test x) as [b|] eqn:Hx; [|done].
  rewrite (Hb _ _ Hx). destruct b; [done|apply IH].
Qed.

(** ** The role resolver: termination *)

Lemma size_list_to_set_le (l : list string) :
  (size (list_to_set l : gset string) ≤ length l)%nat.
Proof.
  induction l as [|x l IH]; [by rewrite list_to_set_nil, size_empty|].
  rewrite list_to_set_cons, size_union_alt, size_singleton. simpl.
  assert (size (list_to_set l ∖ {[x]} : gset string) ≤ size (list_to_set l : gset string))%nat
    by (apply subseteq_size; set_solver).
  lia.
Qed.

Section traversal.
Context (allRoles : list Role).

Lemma size_role_ids : (size (role_ids allRoles) ≤ length allRoles)%nat.
Proof.
  unfold role_ids. rewrite <- (length_fmap role_id allRoles). apply size_list_to_set_le.
Qed.

Lemma unvisited_le role visited : (unvisited allRoles role visited ≤ length allRoles)%nat.
Proof.
  unfold unvisited. etrans; [|apply size_role_ids].
  apply subseteq_size. set_solver.
Qed.

(** Entering a role of the role set that was not visited leaves fewer
    roles to enter. *)
Lemma unvisited_parent role parent visited :
  parent ∈ allRoles →
  role_id parent ∉ ({[role_id role]} ∪ visited : gset string) →
  (unvisited allRoles parent ({[role_id role]} ∪ visited) < unvisited allRoles role visited)%nat.
Proof.
  intros Hin Hnew. unfold unvisited. apply subset_size.
  assert (role_id parent ∈ role_ids allRoles) as Hid.
  { unfold role_ids. apply elem_of_list_to_set, list_elem_of_fmap. eauto. }
  apply strict_spec_alt. split; [set_solver|].
  intros Heq.
  assert (role_id parent ∈ role_ids allRoles ∖ ({[role_id role]} ∪ visited)) as H
    by set_solver.
  rewrite <- Heq in H. set_solver.
Qed.

Lemma getRoleEffectivePermissions_rec_total fuel role visited :
  (S (unvisited allRoles role visited) < fuel)%nat →
  is_Some (getRoleEffectivePermissions_rec fuel role allRoles visited).
Proof.
  revert role visited. induction fuel as [|fuel IH]; intros role visited Hf; [lia|].
  simpl. case_bool_decide as Hv; [by eexists|].
  destruct (has_inheritsFrom role); [|by eexists].
  apply for_of_is_Some. intros pid acc _.
  destruct (find _ allRoles) as [parent|] eqn:Hfind; [|by eexists].
  apply find_Some in Hfind as [Hin _].
  assert (is_Some (getRoleEffectivePermissions_rec fuel parent allRoles
                     ({[role_id role]} ∪ visited))) as [l ->]; [|by eexists].
  destruct (decide (role_id parent ∈ ({[role_id role]} ∪ visited : gset string))) as [Hp|Hp].
  - destruct fuel as [|fuel]; [lia|]. simpl. rewrite bool_decide_true by done. by eexists.
  - apply IH. pose proof (unvisited_parent role parent visited Hin Hp). lia.
Qed.

Lemma roleHasPermission_rec_total fuel role permissionToCheck visited :
  (S (unvisited allRoles role visited) < fuel)%nat →
  is_Some (roleHasPermission_rec fuel role permissionToCheck allRoles visited).
Proof.
  revert role visited. induction fuel as [|fuel IH]; intros role visited Hf; [lia|].
  simpl. case_bool_decide as Hv; [by eexists|].
  destruct (negb _); [by eexists|]. destruct (includes _ _); [by eexists|].
  destruct (has_inheritsFrom role); [|by eexists].
  apply for_of_return_true_is_Some. intros pid _.
  destruct (find _ allRoles) as [parent|] eqn:Hfind; [|by eexists].
  apply find_Some in Hfind as [Hin _].
  destruct (decide (role_id parent ∈ ({[role_id role]} ∪ visited : gset string))) as [Hp|Hp].
  - destruct fuel as [|fuel]; [lia|]. simpl. rewrite bool_decide_true by done. by eexists.
  - apply IH. pose proof (unvisited_parent role parent visited Hin Hp). lia.
Qed.

Lemma getRoleEffectivePermissions_rec_mono fuel fuel' role visited l :
  (fuel ≤ fuel')%nat →
  getRoleEffectivePermissions_rec fuel role allRoles visited = Some l →
  getRoleEffectivePermissions_rec fuel' role allRoles visited = Some l.
Proof.
  revert fuel' role visited l.
  induction fuel as [|fuel IH]; intros fuel' role visited l Hle; [done|].
  destruct fuel' as [|fuel']; [lia|]. simpl.
  case_bool_decide; [done|]. destruct (has_inheritsFrom role); [|done].
  apply for_of_mono. intros pid acc r.
  destruct (find _ allRoles) as [parent|]; [|done].
  destruct (getRoleEffectivePermissions_rec fuel parent allRoles _) as [lp|] eqn:Hp; [|done].
  by rewrite (IH fuel' _ _ _ ltac:(lia) Hp).
Qed.

Lemma roleHasPermission_rec_mono fuel fuel' role permissionToCheck visited b :
  (fuel ≤ fuel')%nat →
  roleHasPermission_rec fuel role permissionToCheck allRoles visited = Some b →
  roleHasPermission_rec fuel' role permissionToCheck allRoles visited = Some b.
Proof.
  revert fuel' role visited b.
  induction fuel as [|fuel IH]; intros fuel' role visited b Hle; [done|].
  destruct fuel' as [|fuel']; [lia|]. simpl.
  case_bool_decide; [done|].
  destruct (negb _); [done|]. destruct (includes _ _); [done|].
  destruct (has_inheritsFrom role); [|done].
  apply for_of_return_true_mono. intros pid r.
  destruct (find _ allRoles) as [parent|]; [|done].
  apply IH. lia.
Qed.

Lemma recursion_budget_enough role :
  (S (unvisited allRoles role ∅) < recursion_budget allRoles)%nat.
Proof. pose proof (unvisited_le role ∅). unfold recursion_budget. lia. Qed.

End traversal.

(** ** The role resolver: membership check against the effective set *)

Lemma NoDup_fmap_elem_eq {A B} (f : A → B) (l : list A) x y :
  NoDup (f <$> l) → x ∈ l → y ∈ l → f x = f y → x = y.
Proof.
  induction l as [|z l IH]; simpl; [by intros _ ?%elem_of_nil|].
  intros [Hz Hl]%NoDup_cons [->|Hx]%elem_of_cons [->|Hy]%elem_of_cons Hf; auto.
  - destruct Hz. rewrite Hf. apply list_elem_of_fmap. eauto.
  - destruct Hz. rewrite <- Hf. apply list_elem_of_fmap. eauto.
Qed.

Lemma for_of_grows {A} (l : list A) (body : A → list string → option (list string)) acc r :
  (∀ x s s', body x s = Some s' → s ⊆ s') →
  for_of l body acc = Some r → acc ⊆ r.
Proof.
  intros Hb. revert acc. induction l as [|x l IH]; intros acc; simpl.
  - by intros [= ->].
  - destruct (body x acc) as [s'|] eqn:Hx; [|done].
    intros Hr. etrans; [by eapply Hb|by apply IH].
Qed.

Section agreement.
Context (allRoles : list Role) (permissionToCheck : string).
Hypothesis unique_ids : NoDup (role_id <$> allRoles).

(** A role's own permissions are part of its effective permissions. *)
Lemma getRoleEffectivePermissions_rec_direct fuel role visited l :
  getRoleEffectivePermissions_rec fuel role allRoles visited = Some l →
  role_id role ∉ visited →
  permissions role ⊆ l.
Proof.
  destruct fuel as [|fuel]; [done|]. simpl. intros Hl Hv.
  rewrite bool_decide_false in Hl by done.
  assert (permissions role ⊆ new_Set (permissions role)) as Hsub.
  { intros x Hx. by apply elem_of_new_Set. }
  destruct (has_inheritsFrom role).
  - etrans; [exact Hsub|]. revert Hl. apply for_of_grows.
    intros pid s s'. destruct (find _ allRoles) as [parent|]; [|by intros [= ->]].
    destruct (getRoleEffectivePermissions_rec fuel parent allRoles _); [|done].
    intros [= <-] x Hx. apply elem_of_Set_addAll. by left.
  - by injection Hl as <-.
Qed.

(** With unique ids, the parent an inactive role hides from the membership
    check is found by neither traversal. *)
Lemma inactive_parent_not_found parentRoleId parent :
  find (λ r, bool_decide (role_id r = parentRoleId)) allRoles = Some parent →
  role_isActive parent = false →
  find (λ r, bool_decide (role_id r = parentRoleId) && role_isActive r) allRoles = None.
Proof.
  intros [Hin Hid%bool_decide_eq_true]%find_Some Hinactive.
  apply find_None. intros x Hx.
  case_bool_decide as Hxid; simpl; [|done].
  assert (x = parent) as -> by (eapply NoDup_fmap_elem_eq; [done..|congruence]).
  done.
Qed.

(** The two loops over the parents of a role, given that the nested calls
    agree. *)
Lemma parent_loops_agree (nestedHas : Role → option bool)
    (nestedEffective : Role → option (list string)) parents acc :
  (∀ parent, parent ∈ allRoles → role_isActive parent = true →
     ∃ b l, nestedHas parent = Some b ∧ nestedEffective parent = Some l
            ∧ (b = true ↔ permissionToCheck ∈ l)) →
  (∀ parent, role_isActive parent = false → nestedHas parent = Some false) →
  ∃ b l,
    for_of_return_true parents
      (λ parentRoleId,
         match find (λ r, bool_decide (role_id r = parentRoleId)) allRoles with
         | Some parentRole => nestedHas parentRole
         | None => Some false
         end) = Some b
    ∧ for_of parents
        (λ parentRoleId effectivePermissions,
           match find (λ r, bool_decide (role_id r = parentRoleId) && role_isActive r)
                   allRoles with
           | Some parentRole =>
               match nestedEffective parentRole with
               | Some parentPermissions =>
                   Some (Set_addAll effectivePermissions parentPermissions)
               | None => None
               end
           | None => Some effectivePermissions
           end) acc = Some l
    ∧ (permissionToCheck ∈ l ↔ permissionToCheck ∈ acc ∨ b = true).
Proof.
  intros Hactive Hinactive. revert acc.
  induction parents as [|pid parents IH]; intros acc; simpl.
  { exists false, acc. repeat split; [tauto|]. by intros [?|?]. }
  destruct (find (λ r, bool_decide (role_id r = pid)) allRoles) as [parent|] eqn:Hfind.
  - destruct (role_isActive parent) eqn:Hact.
    + rewrite (find_and _ role_isActive _ _ Hfind Hact).
      destruct (find_Some _ _ _ Hfind) as [Hin _].
      destruct (Hactive parent Hin Hact) as (bp & lp & -> & -> & Hiff).
      destruct (IH (Set_addAll acc lp)) as (b & l & Hb & Hl & Hbl).
      destruct bp.
      * exists true, l. repeat split; [done|by right|].
        intros _. apply Hbl. left. apply elem_of_Set_addAll. right. by apply Hiff.
      * exists b, l. repeat split; [done..| |].
        -- intros [[?|Hlp]%elem_of_Set_addAll|?]%Hbl; [by left| |by right].
           by apply Hiff in Hlp.
        -- intros [?|?]; apply Hbl; [left|by right].
           apply elem_of_Set_addAll. by left.
    + rewrite (inactive_parent_not_found _ _ Hfind Hact).
      rewrite (Hinactive _ Hact). apply IH.
  - assert (find (λ r, bool_decide (role_id r = pid) && role_isActive r) allRoles = None)
      as ->.
    { apply find_None. intros x Hx.
      rewrite (proj1 (find_None _ _) Hfind x Hx). done. }
    apply IH.
Qed.

Lemma resolver_agree fuel role visited :
  (S (unvisited allRoles role visited) < fuel)%nat →
  role_isActive role = true →
  ∃ b l,
    roleHasPermission_rec fuel role permissionToCheck allRoles visited = Some b
    ∧ getRoleEffectivePermissions_rec fuel role allRoles visited = Some l
    ∧ (b = true ↔ permissionToCheck ∈ l).
Proof.
  revert role visited.
  induction fuel as [|fuel IH]; intros role visited Hf Hact; [lia|].
  destruct (decide (role_id role ∈ visited)) as [Hv|Hv].
  { exists false, []. simpl. rewrite !bool_decide_true by done.
    repeat split; [done|]. by intros ?%elem_of_nil. }
  destruct (getRoleEffectivePermissions_rec_total allRoles (S fuel) role visited Hf)
    as [l Hl].
  pose proof (getRoleEffectivePermissions_rec_direct _ _ _ _ Hl Hv) as Hdirect.
  simpl in Hl |- *. rewrite bool_decide_false in Hl |- * by done.
  rewrite Hact. simpl. unfold includes.
  case_bool_decide as Hinc.
  { exists true, l. repeat split; [done|]. intros _. by apply Hdirect. }
  destruct (has_inheritsFrom role).
  - destruct (parent_loops_agree
      (λ p, roleHasPermission_rec fuel p permissionToCheck allRoles ({[role_id role]} ∪ visited))
      (λ p, getRoleEffectivePermissions_rec fuel p allRoles ({[role_id role]} ∪ visited))
      (default [] (inheritsFrom role)) (new_Set (permissions role)))
      as (b & l' & Hb & Hl' & Hiff).
    + intros parent Hin Hpact.
      destruct (decide (role_id parent ∈ ({[role_id role]} ∪ visited : gset string)))
        as [Hp|Hp].
      * destruct fuel as [|fuel']; [lia|]. exists false, []. simpl.
        rewrite !bool_decide_true by done. repeat split; [done|].
        by intros ?%elem_of_nil.
      * apply IH; [|done].
        pose proof (unvisited_parent allRoles role parent visited Hin Hp). lia.
    + intros parent Hpinact. destruct fuel as [|fuel']; [lia|]. simpl.
      rewrite Hpinact. simpl. by case_bool_decide.
    + exists b, l'. split; [exact Hb|]. split; [exact Hl'|].
      rewrite Hiff, elem_of_new_Set. split; [by right|]. by intros [?|?].
  - exists false, (new_Set (permissions role)). do 2 (split; [done|]).
    split; [done|]. intros Hx. apply (proj1 (elem_of_new_Set _ _)) in Hx. by destruct Hinc.
Qed.

End agreement.

(** C3 (as amended).  For every active role, every role set in which no two
    roles share an id, and every claim, [roleHasPermission] returns true
    exactly when the claim is a member of what
    [getRoleEffectivePermissions] returns. *)
Theorem roleHasPermission_iff_effective role allRoles permissionToCheck :
  role_isActive role = true →
  NoDup (role_id <$> allRoles) →
  ∃ b l,
    roleHasPermission role permissionToCheck allRoles = Some b
    ∧ getRoleEffectivePermissions role allRoles = Some l
    ∧ (b = true ↔ permissionToCheck ∈ l).
Proof.
  intros Hact Hids. unfold roleHasPermission, getRoleEffectivePermissions.
  apply resolver_agree; [done| |done]. apply recursion_budget_enough.
Qed.

Lemma roleHasPermission_iff_effective_witness :
  ∃ b l,
    roleHasPermission Examples.tech_director "feedback:view:all"
      [Examples.tech_director; Examples.helpdesk] = Some b
    ∧ getRoleEffectivePermissions Examples.tech_director
        [Examples.tech_director; Examples.helpdesk] = Some l
    ∧ (b = true ↔ "feedback:view:all" ∈ l).
Proof.
  apply roleHasPermission_iff_effective; [reflexivity|].
  apply (bool_decide_unpack _). by vm_compute.
Defined.

(** C3, counterexample.  For an inactive role that lists a claim the
    membership check returns false, although the claim is a member of what
    [getRoleEffectivePermissions] returns for that role. *)
Lemma inactive_role_disagreement :
  roleHasPermission Examples.retired "billing:view:all" [Examples.retired] = Some false
  ∧ getRoleEffectivePermissions Examples.retired [Examples.retired]
    = Some ["billing:view:all"].
Proof. by vm_compute. Qed.

(** Without unique ids the two functions may disagree on an active role:
    the membership check looks at the first role with the parent's id, the
    effective set at the first active one. *)
Lemma duplicate_id_disagreement :
  let allRoles := [Examples.finance; Examples.auditor_old; Examples.auditor_new] in
  roleHasPermission Examples.finance "report:view:all" allRoles = Some false
  ∧ getRoleEffectivePermissions Examples.finance allRoles
    = Some ["billing:view:all"; "report:view:all"].
Proof. by vm_compute. Qed.

(** C6.  Role-inheritance resolution terminates on every role set: both
    traversals return a result that no larger recursion budget changes.  For
    two active roles A and B with different ids, each inheriting from the
    other, [getRoleEffectivePermissions(A, [A, B])] returns, without
    duplicates, exactly the claims that A or B lists. *)
Theorem role_resolution_terminates :
  (∀ role allRoles, ∃ l,
     ∀ fuel, (recursion_budget allRoles ≤ fuel)%nat →
       getRoleEffectivePermissions_rec fuel role allRoles ∅ = Some l)
  ∧ (∀ role permissionToCheck allRoles, ∃ b,
       ∀ fuel, (recursion_budget allRoles ≤ fuel)%nat →
         roleHasPermission_rec fuel role permissionToCheck allRoles ∅ = Some b)
  ∧ (∀ A B,
       role_isActive A = true → role_isActive B = true →
       role_id A ≠ role_id B →
       inheritsFrom A = Some [role_id B] → inheritsFrom B = Some [role_id A] →
       ∃ l, getRoleEffectivePermissions A [A; B] = Some l
            ∧ NoDup l
            ∧ ∀ claim, claim ∈ l ↔ claim ∈ permissions A ∨ claim ∈ permissions B).
Proof.
  split; [|split].
  - intros role allRoles.
    destruct (getRoleEffectivePermissions_rec_total allRoles _ role ∅
                (recursion_budget_enough allRoles role)) as [l Hl].
    exists l. intros fuel Hfuel.
    by apply (getRoleEffectivePermissions_rec_mono allRoles _ fuel _ _ _ Hfuel).
  - intros role c allRoles.
    destruct (roleHasPermission_rec_total allRoles _ role c ∅
                (recursion_budget_enough allRoles role)) as [b Hb].
    exists b. intros fuel Hfuel.
    by apply (roleHasPermission_rec_mono allRoles _ fuel _ _ _ _ Hfuel).
  - intros A B HA HB Hne HAB HBA.
    exists (Set_addAll (new_Set (permissions A)) (new_Set (permissions B))).
    split; [|split].
    + unfold getRoleEffectivePermissions, recursion_budget. simpl.
      unfold has_inheritsFrom.
      repeat (first [ rewrite HAB | rewrite HBA | rewrite HA | rewrite HB
                    | rewrite bool_decide_false by (done || set_solver)
                    | rewrite bool_decide_true by (done || set_solver) ]; simpl).
      done.
    + apply NoDup_Set_addAll, NoDup_new_Set.
    + intros claim. by rewrite elem_of_Set_addAll, !elem_of_new_Set.
Qed.

Lemma role_resolution_terminates_witness :
  ∃ l, getRoleEffectivePermissions Examples.tech_director
         [Examples.tech_director; Examples.helpdesk] = Some l
       ∧ NoDup l
       ∧ ∀ claim, claim ∈ l ↔ claim ∈ permissions Examples.tech_director
                              ∨ claim ∈ permissions Examples.helpdesk.
Proof.
  apply (proj2 (proj2 role_resolution_terminates)); try reflexivity.
  by vm_compute.
Defined.

(** C4, the code at the failing input.  The demo principal Robert Wilson is
    inactive, and [getUserEffectivePermissions] returns for him the ten
    claims of his role instead of nothing. *)
Lemma getUserEffectivePermissions_inactive_user :
  user_isActive Examples.robert_wilson = false
  ∧ getUserEffectivePermissions Examples.robert_wilson [Examples.service_specialist]
      Examples.no_options
    = Some (permissions Examples.service_specialist).
Proof. by vm_compute. Qed.

(** ** The decision cache *)

Lemma clearPermissionCache_lookup cache userId key :
  userId ≠ "" →
  clearPermissionCache (Some userId) cache !! key
  = if startsWith key (userId +:+ ":") then None else cache !! key.
Proof.
  intros Hne. unfold clearPermissionCache. rewrite bool_decide_false by done.
  rewrite map_lookup_filter. simpl.
  destruct (cache !! key) as [entry|]; simpl; [|by destruct (startsWith _ _)].
  destruct (startsWith key (userId +:+ ":")) eqn:Hs.
  - by rewrite option_guard_False.
  - by rewrite option_guard_True.
Qed.

(** The key of another principal does not start with [p:] when neither id
    contains a colon. *)
Lemma cacheKey_other_principal p q claim :
  occurs ":" p = false → occurs ":" q = false → q ≠ p →
  startsWith (cacheKey q claim) (p +:+ ":") = false.
Proof.
  unfold cacheKey. revert q.
  induction p as [|cp p IH]; intros [|cq q] Hp Hq Hne; simpl in *; try done.
  - apply orb_false_iff in Hq as [Hq _]. by rewrite Hq.
  - apply orb_false_iff in Hp as [Hp _]. apply bool_decide_eq_false in Hp.
    rewrite bool_decide_false; [done|]. by intros <-.
  - apply orb_false_iff in Hp as [_ Hp]. apply orb_false_iff in Hq as [_ Hq].
    case_bool_decide as Hc; simpl; [|done].
    apply IH; [done..|]. intros ->. by subst.
Qed.

Lemma cacheKey_own_principal p claim :
  startsWith (cacheKey p claim) (p +:+ ":") = true.
Proof.
  unfold cacheKey. induction p as [|c p IH]; simpl.
  - done.
  - rewrite bool_decide_true by done. exact IH.
Qed.

(** C8 (as amended).  For every cache and every non-empty principal id [p],
    [clearPermissionCache(p)] removes the entries of [p] and leaves unchanged
    every entry whose key does not begin with [p] and a colon; in particular
    the entries of every other principal [q] are unchanged when neither id
    contains a colon.  Called with no id, or with the empty id, it empties
    the cache. *)
Theorem clearPermissionCache_frame (cache : Cache) :
  (∀ p key, p ≠ "" → startsWith key (p +:+ ":") = false →
     clearPermissionCache (Some p) cache !! key = cache !! key)
  ∧ (∀ p claim, p ≠ "" →
       clearPermissionCache (Some p) cache !! cacheKey p claim = None)
  ∧ (∀ p q claim, p ≠ "" → occurs ":" p = false → occurs ":" q = false → q ≠ p →
       clearPermissionCache (Some p) cache !! cacheKey q claim
       = cache !! cacheKey q claim)
  ∧ clearPermissionCache None cache = ∅
  ∧ clearPermissionCache (Some "") cache = ∅.
Proof.
  split; [|split; [|split; [|done]]].
  - intros p key Hne Hs. by rewrite clearPermissionCache_lookup, Hs.
  - intros p claim Hne. by rewrite clearPermissionCache_lookup, cacheKey_own_principal.
  - intros p q claim Hne Hp Hq Hqp.
    by rewrite clearPermissionCache_lookup, cacheKey_other_principal.
Qed.

Lemma clearPermissionCache_frame_witness :
  clearPermissionCache (Some "a:b") Examples.two_principals !! cacheKey "a" "member:view:all"
  = Examples.two_principals !! cacheKey "a" "member:view:all"
  ∧ clearPermissionCache (Some "a:b") Examples.two_principals
      !! cacheKey "a:b" "member:view:all" = None
  ∧ clearPermissionCache (Some "u1") Examples.two_principals !! cacheKey "a" "member:view:all"
    = Examples.two_principals !! cacheKey "a" "member:view:all".
Proof.
  destruct (clearPermissionCache_frame Examples.two_principals) as (W1 & W2 & W3 & _).
  split; [|split].
  - by apply W1.
  - by apply W2.
  - by apply W3.
Defined.

(** C8, counterexample.  Clearing the cache for the principal "a" also
    removes the entry of the different principal "a:b". *)
Lemma clearPermissionCache_removes_other_principal :
  "a:b" ≠ "a"
  ∧ Examples.two_principals !! cacheKey "a:b" "member:view:all"
    = Some {| result := true; timestamp := 0 |}
  ∧ clearPermissionCache (Some "a") Examples.two_principals
      !! cacheKey "a:b" "member:view:all" = None.
Proof. by vm_compute. Qed.

(** ** The decision engine *)

Lemma logAccess_returns (on : bool) user resource action scope granted (cache : Cache) :
  (if on then logAccessAttempt user resource action scope granted else mret tt) cache
  = Some (Return tt, cache).
Proof. by destruct on. Qed.

Lemma role_loop_total (userRoles allRoles : list Role) permissionToCheck :
  is_Some (for_of_return_true userRoles
             (λ role, roleHasPermission role permissionToCheck allRoles)).
Proof.
  apply for_of_return_true_is_Some. intros role _.
  apply roleHasPermission_rec_total, recursion_budget_enough.
Qed.

Lemma bind_returns {A B} (m : M A) (k : A → M B) cache a cache' :
  m cache = Some (Return a, cache') → (m ≫= k) cache = k a cache'.
Proof. unfold mbind, M_bind. by intros ->. Qed.

Lemma bind_throws {A B} (m : M A) (k : A → M B) cache e cache' :
  m cache = Some (Throw e, cache') → (m ≫= k) cache = Some (Throw e, cache').
Proof. unfold mbind, M_bind. by intros ->. Qed.

Lemma try_catchM_returns {A} (body : M A) handler cache a cache' :
  body cache = Some (Return a, cache') →
  try_catchM body handler cache = Some (Return a, cache').
Proof. unfold try_catchM. by intros ->. Qed.

Lemma try_catchM_throws {A} (body : M A) handler cache e cache' :
  body cache = Some (Throw e, cache') →
  try_catchM body handler cache = handler e cache'.
Proof. unfold try_catchM. by intros ->. Qed.

Lemma cache_lookup_returns (on : bool) key now (cache : Cache) :
  (if on
   then cached ← permissionCache_get key; mret (live_verdict now cached)
   else mret None) cache
  = Some (Return (if on then live_verdict now (cache !! key) else None), cache).
Proof. by destruct on. Qed.

Lemma access_returns u claim allRoles (cache : Cache) :
  ∃ hasAccess : bool,
    (if includes (default [] (directPermissions u)) claim
     then mret true
     else
       let userRoles :=
         List.filter (λ role, includes (roles u) (role_id role) && role_isActive role)
           allRoles in
       liftO (for_of_return_true userRoles
                (λ role, roleHasPermission role claim allRoles))) cache
    = Some (Return hasAccess, cache).
Proof.
  destruct (includes _ claim); [by eexists|]. simpl. unfold liftO.
  destruct (role_loop_total
              (List.filter
                 (λ role, includes (roles u) (role_id role) && role_isActive role)
                 allRoles) allRoles claim) as [b ->].
  by eexists.
Qed.

Lemma cache_store_returns (on : bool) key entry (cache : Cache) :
  (if on then permissionCache_set key entry else mret tt) cache
  = Some (Return tt, if on then <[key := entry]> cache else cache).
Proof. by destruct on. Qed.

Lemma hasPermission_returns user resource action scope allRoles options now cache :
  ∃ b cache',
    hasPermission user resource action scope allRoles options now cache
    = Some (Return b, cache')
    ∧ (ends_early user resource action scope → b = false ∧ cache' = cache).
Proof.
  unfold hasPermission, ends_early.
  destruct user as [u|]; [destruct (user_isActive u) eqn:Hact|]; simpl.
  - destruct (createPermissionClaim resource action scope) as [claim|e].
    + destruct (access_returns u claim allRoles cache) as [hasAccess Haccess].
      destruct (if useCache_on options
                then live_verdict now (cache !! cacheKey (user_id u) claim)
                else None) as [verdict|] eqn:Hhit.
      * exists verdict, cache. split; [|by intros [?|[e ?]]].
        apply try_catchM_returns.
        rewrite (bind_returns _ _ cache claim cache eq_refl).
        rewrite (bind_returns _ _ _ _ _ (cache_lookup_returns _ _ _ _)).
        by rewrite Hhit.
      * eexists hasAccess, _. split; [|by intros [?|[e ?]]].
        apply try_catchM_returns.
        rewrite (bind_returns _ _ cache claim cache eq_refl).
        rewrite (bind_returns _ _ _ _ _ (cache_lookup_returns _ _ _ _)).
        rewrite Hhit.
        rewrite (bind_returns _ _ _ _ _ Haccess).
        rewrite (bind_returns _ _ _ _ _ (cache_store_returns _ _ _ _)).
        rewrite (bind_returns _ _ _ _ _ (logAccess_returns _ _ _ _ _ _ _)).
        reflexivity.
    + exists false, cache. split; [|done].
      rewrite (try_catchM_throws _ _ cache e cache); [|done].
      by rewrite (bind_returns _ _ _ _ _ (logAccess_returns _ _ _ _ _ _ _)).
  - exists false, cache. split; [|done]. apply try_catchM_returns.
    by rewrite (bind_returns _ _ _ _ _ (logAccess_returns _ _ _ _ _ _ _)).
  - exists false, cache. split; [|done]. apply try_catchM_returns.
    by rewrite (bind_returns _ _ _ _ _ (logAccess_returns _ _ _ _ _ _ _)).
Qed.

(** C9.  [hasPermission] is total and never throws: on every input it
    returns a boolean, and when the triple is rejected by
    [createPermissionClaim] (with whatever exception) that boolean is false. *)
Theorem hasPermission_never_throws user resource action scope allRoles options now cache :
  ∃ b cache',
    hasPermission user resource action scope allRoles options now cache
    = Some (Return b, cache')
    ∧ (∀ e, createPermissionClaim resource action scope = Throw e → b = false).
Proof.
  destruct (hasPermission_returns user resource action scope allRoles options now cache)
    as (b & cache' & Hret & Hearly).
  exists b, cache'. split; [done|]. intros e He.
  apply Hearly. unfold ends_early. destruct user; [right|done]. by exists e.
Qed.

Lemma hasPermission_never_throws_witness :
  ∃ b cache',
    hasPermission (Some Examples.sarah) "payroll" "view" "all" []
      Examples.default_options 0 ∅ = Some (Return b, cache')
    ∧ b = false.
Proof.
  destruct (hasPermission_never_throws (Some Examples.sarah) "payroll" "view" "all"
              [] Examples.default_options 0 ∅) as (b & cache' & Hret & Hfalse).
  exists b, cache'. split; [exact Hret|].
  apply (Hfalse (Error "Invalid resource type: payroll")).
  reflexivity.
Defined.

(** The handler also catches the [TypeError] raised for a resource name
    that resolves to an inherited member. *)
Lemma hasPermission_inherited_member :
  createPermissionClaim "toString" "view" "all"
  = Throw (TypeError "Cannot read properties of undefined (reading 'includes')")
  ∧ hasPermission (Some Examples.sarah) "toString" "view" "all" []
      Examples.default_options 0 ∅ = Some (Return false, ∅).
Proof. by vm_compute. Qed.

(** C1 (as amended).  When the triple fails claim validation, no error
    reaches the caller of the decision entry points: [hasPermission] returns
    false and leaves the cache as it was, and [checkAuthorization] resolves
    to [authorized: false] with the message "User not authenticated" for an
    absent principal, "User account is inactive" for an inactive one, and
    "Insufficient permissions: resource:action:scope" otherwise. *)
Theorem validation_failure_is_denied user resource action scope allRoles options now cache e :
  createPermissionClaim resource action scope = Throw e →
  hasPermission user resource action scope allRoles options now cache
  = Some (Return false, cache)
  ∧ checkAuthorization user resource action scope allRoles options now cache
    = Some (Return
              {| authorized := false;
                 error :=
                   Some (match user with
                         | None => "User not authenticated"
                         | Some u =>
                             if user_isActive u
                             then "Insufficient permissions: "
                                  +:+ claim_string resource action scope
                             else "User account is inactive"
                         end) |},
            cache).
Proof.
  intros He.
  assert (∀ user, hasPermission user resource action scope allRoles options now cache
                  = Some (Return false, cache)) as Hdenied.
  { intros user'.
    destruct (hasPermission_returns user' resource action scope allRoles options now cache)
      as (b & cache' & Hret & Hearly).
    destruct Hearly as [-> ->]; [|done].
    unfold ends_early. destruct user'; [right|done]. by exists e. }
  split; [apply Hdenied|].
  unfold checkAuthorization. apply try_catchM_returns.
  destruct user as [u|]; [|done].
  destruct (user_isActive u); [|done]. simpl.
  by rewrite (bind_returns _ _ _ _ _ (Hdenied (Some u))).
Qed.

Lemma validation_failure_is_denied_witness :
  hasPermission (Some Examples.sarah) "badresource" "view" "all" []
    Examples.default_options 0 ∅ = Some (Return false, ∅)
  ∧ checkAuthorization (Some Examples.sarah) "badresource" "view" "all" []
      Examples.default_options 0 ∅
    = Some (Return {| authorized := false;
                      error := Some "Insufficient permissions: badresource:view:all" |}, ∅).
Proof.
  apply (validation_failure_is_denied (Some Examples.sarah) "badresource" "view" "all" []
           Examples.default_options 0 ∅ (Error "Invalid resource type: badresource")).
  reflexivity.
Defined.

(** C1, counterexample.  For an active principal and a resource outside
    its enumeration the validation error of [createPermissionClaim] is not
    propagated: [hasPermission] returns false, and [checkAuthorization]
    resolves to a denial. *)
Lemma validation_failure_not_propagated :
  createPermissionClaim "bogus" "view" "all" = Throw (Error "Invalid resource type: bogus")
  ∧ hasPermission (Some Examples.sarah) "bogus" "view" "all" []
      Examples.default_options 0 ∅ = Some (Return false, ∅)
  ∧ checkAuthorization (Some Examples.sarah) "bogus" "view" "all" []
      Examples.default_options 0 ∅
    = Some (Return {| authorized := false;
                      error := Some "Insufficient permissions: bogus:view:all" |}, ∅).
Proof. by vm_compute. Qed.

(** * Further properties of the core *)

(** ** The claim codec in both directions *)

Lemma Object_prototype_tokens :
  Forall (λ key, occurs ":" key = false ∧ key ≠ "") Object_prototype.
Proof. apply (bool_decide_unpack _). by vm_compute. Qed.

(** A segment that a definition table resolves is non-empty and has no
    colon. *)
Lemma resolves_token_resource key :
  resolves RESOURCE_DEFINITIONS key → occurs ":" key = false ∧ key ≠ "".
Proof.
  pose proof enumeration_tokens as He. pose proof Object_prototype_tokens as Hp.
  rewrite Forall_forall in He, Hp.
  intros [H%RESOURCE_DEFINITIONS_keys|H]; [|by apply Hp].
  apply He. rewrite !elem_of_app. auto.
Qed.

Lemma resolves_token_action key :
  resolves ACTION_DEFINITIONS key → occurs ":" key = false ∧ key ≠ "".
Proof.
  pose proof enumeration_tokens as He. pose proof Object_prototype_tokens as Hp.
  rewrite Forall_forall in He, Hp.
  intros [H%ACTION_DEFINITIONS_keys|H]; [|by apply Hp].
  apply He. rewrite !elem_of_app. auto.
Qed.

Lemma resolves_token_scope key :
  resolves SCOPE_DEFINITIONS key → occurs ":" key = false ∧ key ≠ "".
Proof.
  pose proof enumeration_tokens as He. pose proof Object_prototype_tokens as Hp.
  rewrite Forall_forall in He, Hp.
  intros [H%SCOPE_DEFINITIONS_keys|H]; [|by apply Hp].
  apply He. rewrite !elem_of_app. auto.
Qed.

(** When [createPermissionClaim] returns, the resource is in its enumeration
    and action and scope resolve. *)
Lemma createPermissionClaim_Return_inv resource action scope claim :
  createPermissionClaim resource action scope = Return claim →
  claim = claim_string resource action scope
  ∧ resource ∈ ResourceType
  ∧ resolves ACTION_DEFINITIONS action
  ∧ resolves SCOPE_DEFINITIONS scope.
Proof.
  unfold createPermissionClaim, ConfigHelpers.getResourceDefinition.
  rewrite !truthy_get.
  case_bool_decide as Hr0; simpl; [done|].
  case_bool_decide as Hr; simpl; [|done].
  case_bool_decide as Ha0; simpl; [done|].
  case_bool_decide as Ha; simpl; [|done].
  case_bool_decide as Hs0; simpl; [done|].
  case_bool_decide as Hs; simpl; [|done].
  unfold get. destruct (assoc RESOURCE_DEFINITIONS resource) as [d|] eqn:Hd.
  - intros [= <-]. repeat split; [|done..].
    apply (proj1 (RESOURCE_DEFINITIONS_keys _)), (proj1 (assoc_is_Some _ _)). by exists d.
  - by destruct (includes Object_prototype resource).
Qed.

Lemma createPermissionClaim_parses resource action scope claim :
  createPermissionClaim resource action scope = Return claim →
  parsePermissionClaim claim = Return (resource, action, scope).
Proof.
  intros (-> & Hr & Ha & Hs)%createPermissionClaim_Return_inv.
  assert (resolves RESOURCE_DEFINITIONS resource) as Hr'
    by (left; by apply RESOURCE_DEFINITIONS_keys).
  destruct (resolves_token_resource _ Hr') as [? _].
  destruct (resolves_token_action _ Ha) as [? _].
  destruct (resolves_token_scope _ Hs) as [? _].
  rewrite parsePermissionClaim_three by done.
  repeat case_decide; tauto.
Qed.

(** When [parsePermissionClaim] returns, the claim is the three returned
    segments joined by colons, and each segment resolves. *)
Lemma parsePermissionClaim_Return_inv claim resource action scope :
  parsePermissionClaim claim = Return (resource, action, scope) →
  three_segments claim resource action scope
  ∧ resolves RESOURCE_DEFINITIONS resource
  ∧ resolves ACTION_DEFINITIONS action
  ∧ resolves SCOPE_DEFINITIONS scope.
Proof.
  unfold parsePermissionClaim. case_bool_decide; [done|].
  destruct (split ":" claim) as [|r [|a [|s [|x l]]]] eqn:Hsplit; try done.
  rewrite !truthy_get.
  case_bool_decide as Hr; simpl; [|done].
  case_bool_decide as Ha; simpl; [|done].
  case_bool_decide as Hs; simpl; [|done].
  intros [= <- <- <-]. split; [by apply split_three|done].
Qed.

(** X1.  Whatever [createPermissionClaim] returns, for any three strings, is
    the string [resource:action:scope], and [parsePermissionClaim] decodes
    it to the same triple. *)
Theorem createPermissionClaim_decodes resource action scope claim :
  createPermissionClaim resource action scope = Return claim →
  claim = claim_string resource action scope
  ∧ parsePermissionClaim claim = Return (resource, action, scope).
Proof.
  intros Hc. split; [|by apply createPermissionClaim_parses].
  by apply createPermissionClaim_Return_inv in Hc as [-> _].
Qed.

Lemma createPermissionClaim_decodes_witness :
  "member:toString:all" = claim_string "member" "toString" "all"
  ∧ parsePermissionClaim "member:toString:all" = Return ("member", "toString", "all").
Proof. by apply createPermissionClaim_decodes. Defined.

(** X2.  The other round trip: a claim that [parsePermissionClaim] decodes,
    with a resource that is not the name of an inherited member, is what
    [createPermissionClaim] returns for the decoded triple. *)
Theorem parsePermissionClaim_encodes claim resource action scope :
  parsePermissionClaim claim = Return (resource, action, scope) →
  resource ∉ Object_prototype →
  createPermissionClaim resource action scope = Return claim.
Proof.
  intros ((-> & _) & Hr & Ha & Hs)%parsePermissionClaim_Return_inv Hproto.
  destruct (resolves_token_resource _ Hr) as [_ ?].
  destruct (resolves_token_action _ Ha) as [_ ?].
  destruct (resolves_token_scope _ Hs) as [_ ?].
  unfold createPermissionClaim, ConfigHelpers.getResourceDefinition.
  rewrite !truthy_get.
  rewrite !(bool_decide_false (_ = "")) by done.
  rewrite !(bool_decide_true (resolves _ _)) by done. simpl.
  destruct Hr as [Hr|Hr]; [|done].
  by destruct (get_Own _ _ Hr) as [d ->].
Qed.

Lemma parsePermissionClaim_encodes_witness :
  createPermissionClaim "billing" "view" "district" = Return "billing:view:district".
Proof.
  apply parsePermissionClaim_encodes; [reflexivity|].
  apply (bool_decide_unpack _). by vm_compute.
Defined.

(** X3.  The encoding is injective: two triples for which
    [createPermissionClaim] returns the same claim are equal. *)
Theorem createPermissionClaim_injective resource action scope resource' action' scope' claim :
  createPermissionClaim resource action scope = Return claim →
  createPermissionClaim resource' action' scope' = Return claim →
  resource = resource' ∧ action = action' ∧ scope = scope'.
Proof.
  intros H1%createPermissionClaim_parses H2%createPermissionClaim_parses.
  rewrite H1 in H2. by injection H2 as -> -> ->.
Qed.

Lemma createPermissionClaim_injective_witness :
  "file" = "file" ∧ "upload" = "upload" ∧ "owned" = "owned".
Proof.
  by apply (createPermissionClaim_injective "file" "upload" "owned"
              "file" "upload" "owned" "file:upload:owned").
Defined.



(** ** Validation *)

Lemma validatePermissionClaim_nil claim :
  validatePermissionClaim claim = [] ↔ ∃ triple, parsePermissionClaim claim = Return triple.
Proof.
  unfold validatePermissionClaim. case_bool_decide as He.
  - subst claim. split; [done|]. by intros [t Ht].
  - destruct (parsePermissionClaim claim) as [t|e].
    + split; [by eexists|done].
    + split; [done|]. by intros [t Ht].
Qed.

(** The error that is reported carries the message of the exception; its
    code is REQUIRED for the empty claim and INVALID_FORMAT for every other
    failure, an unknown resource, action or scope included. *)
Lemma validatePermissionClaim_outcome claim :
  validatePermissionClaim claim =
    match parsePermissionClaim claim with
    | Return _ => []
    | Throw e =>
        [ {| field := "permission";
             message := exception_message e;
             code := if decide (claim = "") then "REQUIRED" else "INVALID_FORMAT" |} ]
    end.
Proof.
  unfold validatePermissionClaim. case_bool_decide as He.
  - subst claim. reflexivity.
  - rewrite decide_False by done. by destruct (parsePermissionClaim claim).
Qed.

(** X5.  [validatePermissionClaim] reports no error exactly for the strings
    made of three colon-delimited segments that the three definition tables
    resolve, it never reports more than one error, and it accepts every claim
    that [createPermissionClaim] returns. *)
Theorem validatePermissionClaim_accepts claim :
  (validatePermissionClaim claim = [] ↔
     ∃ resource action scope,
       three_segments claim resource action scope
       ∧ resolves RESOURCE_DEFINITIONS resource
       ∧ resolves ACTION_DEFINITIONS action
       ∧ resolves SCOPE_DEFINITIONS scope)
  ∧ (length (validatePermissionClaim claim) ≤ 1)%nat
  ∧ (∀ resource action scope,
       createPermissionClaim resource action scope = Return claim →
       validatePermissionClaim claim = []).
Proof.
  split; [|split].
  - rewrite validatePermissionClaim_nil. split.
    + intros [[[r a] sc] Hp]. exists r, a, sc.
      by apply parsePermissionClaim_Return_inv.
    + intros (r & a & sc & (-> & Hr & Ha & Hsc) & Rr & Ra & Rs).
      exists (r, a, sc). rewrite parsePermissionClaim_three by done.
      repeat case_decide; tauto.
  - rewrite validatePermissionClaim_outcome.
    destruct (parsePermissionClaim claim); simpl; lia.
  - intros r a sc Hc%createPermissionClaim_parses.
    apply validatePermissionClaim_nil. by eexists.
Qed.

Lemma validatePermissionClaim_accepts_witness :
  validatePermissionClaim "report:create:department" = [].
Proof.
  by apply (proj2 (proj2 (validatePermissionClaim_accepts "report:create:department"))
              "report" "create" "department").
Defined.

Lemma trim_blank s : trim s = "" ↔ blank s = true.
Proof.
  unfold trim. induction s as [|c s IH]; simpl; [done|].
  destruct (is_whitespace c) eqn:Hc; simpl; [done|].
  split; [|done]. rewrite Hc. by destruct (trimEnd s).
Qed.

Lemma validateRole_permissions_nil (permissions : list string) (name : nat → string) :
  concat (imap (λ (index : nat) (permission : string),
                  (λ err, {| field := name index;
                             message := message err;
                             code := code err |})
                  <$> validatePermissionClaim permission)
            permissions) = []
  ↔ Forall (λ permission, ∃ triple, parsePermissionClaim permission = Return triple)
      permissions.
Proof.
  revert name. induction permissions as [|p ps IH]; intros name; simpl.
  - split; [by constructor|done].
  - rewrite Forall_cons, <- validatePermissionClaim_nil.
    rewrite <- (IH (name ∘ S)). split.
    + intros [H1 H2]%app_eq_nil. split; [|exact H2].
      by destruct (validatePermissionClaim p).
    + intros [H1 H2]. rewrite H1. exact H2.
Qed.

(** X6.  [validateRole] reports no error exactly when the name is present,
    not blank, and 3 to 100 characters long (counted before trimming), the
    description is present, not blank, and at least 10 characters long (no
    upper bound is enforced), the level is a non-empty string, and every
    listed permission is a claim that [parsePermissionClaim] decodes. *)
Theorem validateRole_accepts role :
  validateRole role = [] ↔
    (∃ name, partial_name role = Some name ∧ blank name = false
             ∧ (3 ≤ String.length name ≤ 100)%nat)
    ∧ (∃ description, partial_description role = Some description
                      ∧ blank description = false
                      ∧ (10 ≤ String.length description)%nat)
    ∧ (∃ l, partial_level role = Some l ∧ l ≠ "")
    ∧ (∀ permissions, partial_permissions role = Some permissions →
         Forall (λ permission, ∃ triple, parsePermissionClaim permission = Return triple)
           permissions).
Proof.
  unfold validateRole.
  pose proof (validateRole_permissions_nil) as Hperm.
  destruct role as [name description lvl perms]; simpl.
  rewrite !app_nil.
  assert (∀ s, bool_decide (trim s = "") = blank s) as Htrim.
  { intros s. destruct (blank s) eqn:Hb.
    - apply bool_decide_eq_true, trim_blank, Hb.
    - apply bool_decide_eq_false. intros Ht%trim_blank. congruence. }
  split.
  - intros (Hn & Hd & Hl & Hp). repeat split.
    + destruct name as [n|]; [|done]. exists n. rewrite Htrim in Hn.
      destruct (blank n); [done|]. simpl in Hn.
      repeat case_bool_decide; try done. repeat split; lia.
    + destruct description as [d|]; [|done]. exists d. rewrite Htrim in Hd.
      destruct (blank d); [done|]. simpl in Hd.
      repeat case_bool_decide; try done. repeat split; lia.
    + destruct lvl as [l|]; [|done]. exists l. by case_bool_decide.
    + intros ps [= ->]. by apply (Hperm ps (λ index, "permissions." +:+ pretty index)).
  - intros ((n & -> & Hn & Hn3 & Hn100) & (d & -> & Hd & Hd10) & (l & -> & Hl) & Hp).
    rewrite !Htrim, Hn, Hd. simpl.
    rewrite !bool_decide_false by lia. rewrite (bool_decide_false (l = "")) by done.
    repeat split. destruct perms as [ps|]; [|done].
    apply (Hperm ps (λ index, "permissions." +:+ pretty index)). by apply Hp.
Qed.

Lemma validateRole_accepts_witness :
  validateRole {| partial_name := Some "  x";
                  partial_description := Some "Ten chars.";
                  partial_level := Some "support";
                  partial_permissions := Some ["feedback:view:all"] |} = [].
Proof.
  apply validateRole_accepts. simpl. split; [|split; [|split]].
  - exists "  x". split; [done|]. split; [by vm_compute|]. simpl. lia.
  - exists "Ten chars.". split; [done|]. split; [by vm_compute|]. simpl. lia.
  - by exists "support".
  - intros ps [= <-]. repeat constructor. by eexists.
Defined.

(** ** Risk levels *)

Lemma riskOrder_range r : 1 ≤ riskOrder r ≤ 4.
Proof. destruct r; simpl; lia. Qed.

(** The key of [riskOrder] at position [riskOrder r - 1] is [r]. *)
Lemma Object_keys_riskOrder_at r :
  array_get Object_keys_riskOrder (riskOrder r - 1) = Some r.
Proof. by destruct r. Qed.

Lemma riskOrder_max a b :
  Z.max (riskOrder a) (riskOrder b) = riskOrder (if riskier b a then b else a).
Proof. by destruct a, b. Qed.

(** X7.  [determineAccessRiskLevel] always returns one of the four levels,
    never [undefined]; the level is at least the risk of the resource and of
    the action, and it is critical only when the resource or the action is
    critical, whatever the scope. *)
Theorem determineAccessRiskLevel_bounds resource action scope :
  ∃ lvl,
    determineAccessRiskLevel resource action scope = Some lvl
    ∧ riskier (resource_riskLevel resource) lvl = false
    ∧ riskier (action_riskLevel action) lvl = false
    ∧ (lvl = critical ↔
         resource_riskLevel resource = critical ∨ action_riskLevel action = critical).
Proof.
  unfold determineAccessRiskLevel.
  destruct (resource_riskLevel resource), (action_riskLevel action);
    repeat case_bool_decide; simpl;
    (eexists; split; [reflexivity|]); simpl; repeat split;
    try done; try (by left); try (by right); by intros [?|?].
Qed.

(** X8.  For two scopes of the enumeration, the broader one never gets the
    lower access risk, whatever resource and action are. *)
Theorem determineAccessRiskLevel_scope_monotone resource action scope scope' :
  scope ∈ PermissionScope → scope' ∈ PermissionScope →
  spec_scope_breadth scope ≤ spec_scope_breadth scope' →
  ∃ lvl lvl',
    determineAccessRiskLevel resource action scope = Some lvl
    ∧ determineAccessRiskLevel resource action scope' = Some lvl'
    ∧ riskier lvl lvl' = false.
Proof.
  intros Hs Hs' Hle.
  rewrite <- !scope_level_breadth in Hle by done.
  unfold determineAccessRiskLevel.
  destruct (resource_riskLevel resource), (action_riskLevel action);
    repeat case_bool_decide; simpl;
    (eexists _, _; split; [reflexivity|split; [reflexivity|]]); simpl;
    first [done | lia].
Qed.

Lemma determineAccessRiskLevel_scope_monotone_witness :
  ∃ lvl lvl',
    determineAccessRiskLevel "contact" "view" "owned" = Some lvl
    ∧ determineAccessRiskLevel "contact" "view" "region" = Some lvl'
    ∧ riskier lvl lvl' = false.
Proof.
  apply determineAccessRiskLevel_scope_monotone;
    [apply (bool_decide_unpack _); by vm_compute..|by vm_compute].
Defined.

(** X9.  [determineRiskLevel] never returns [undefined]: it returns medium
    when no permission or a permission that does not parse is given, and
    otherwise the higher of the risks of the claim's resource and action; the
    scope of the claim and the kind of change do not matter. *)
Theorem determineRiskLevel_outcome action permission :
  determineRiskLevel action permission =
    Some (match permission with
          | None => medium
          | Some claim =>
              match parsePermissionClaim claim with
              | Return (resource, permAction, _) =>
                  if riskier (action_riskLevel permAction) (resource_riskLevel resource)
                  then action_riskLevel permAction
                  else resource_riskLevel resource
              | Throw _ => medium
              end
          end).
Proof.
  unfold determineRiskLevel. destruct permission as [claim|]; [|done].
  case_bool_decide as He; [by subst claim|].
  destruct (parsePermissionClaim claim) as [[[r a] sc]|e]; [|done].
  rewrite riskOrder_max. apply Object_keys_riskOrder_at.
Qed.

(** ** The comparator as an order *)

(** X10.  [isPermissionStronger] is transitive on all strings: together
    with irreflexivity it is a strict partial order on claims. *)
Theorem isPermissionStronger_transitive permA permB permC :
  isPermissionStronger permA permB = true →
  isPermissionStronger permB permC = true →
  isPermissionStronger permA permC = true.
Proof.
  unfold isPermissionStronger, try_catch.
  destruct (parsePermissionClaim permA) as [[[resA actA] scopeA]|eA]; [|done].
  destruct (parsePermissionClaim permB) as [[[resB actB] scopeB]|eB]; [|done].
  destruct (parsePermissionClaim permC) as [[[resC actC] scopeC]|eC];
    [|by repeat (case_bool_decide; simpl)].
  repeat (case_bool_decide; simpl); try done; intros _ _; subst;
    first [done | lia | congruence].
Qed.

Lemma isPermissionStronger_transitive_witness :
  isPermissionStronger "member:delete:none" "member:view:assigned" = true.
Proof.
  by apply (isPermissionStronger_transitive _ "member:view:all").
Defined.

(** X11.  A claim is stronger only than a claim on the same resource, and
    only when [parsePermissionClaim] decodes both. *)
Theorem isPermissionStronger_comparable permA permB :
  isPermissionStronger permA permB = true →
  ∃ resource actA scopeA actB scopeB,
    parsePermissionClaim permA = Return (resource, actA, scopeA)
    ∧ parsePermissionClaim permB = Return (resource, actB, scopeB).
Proof.
  unfold isPermissionStronger, try_catch.
  destruct (parsePermissionClaim permA) as [[[resA actA] scopeA]|eA]; [|done].
  destruct (parsePermissionClaim permB) as [[[resB actB] scopeB]|eB]; [|done].
  simpl. case_bool_decide as Hr; simpl; [|done]. subst resB. intros _.
  by exists resA, actA, scopeA, actB, scopeB.
Qed.

Lemma isPermissionStronger_comparable_witness :
  ∃ resource actA scopeA actB scopeB,
    parsePermissionClaim "file:delete:owned" = Return (resource, actA, scopeA)
    ∧ parsePermissionClaim "file:upload:all" = Return (resource, actB, scopeB).
Proof. by apply isPermissionStronger_comparable. Defined.

(** ** The role resolver as a transitive closure *)

Lemma for_of_invariant {A S} (P : S → Prop) (l : list A) (body : A → S → option S) s r :
  (∀ x s s', body x s = Some s' → P s → P s') →
  P s → for_of l body s = Some r → P r.
Proof.
  intros Hb. revert s. induction l as [|x l IH]; intros s Hs; simpl.
  - by intros [= <-].
  - destruct (body x s) as [s'|] eqn:Hx; [|done]. apply IH. by eapply Hb.
Qed.

Lemma for_of_return_true_true {A} (l : list A) (test : A → option bool) :
  for_of_return_true l test = Some true → ∃ x, x ∈ l ∧ test x = Some true.
Proof.
  induction l as [|x l IH]; simpl; [done|].
  destruct (test x) as [[]|] eqn:Hx; [|intros [y [? ?]]%IH|done].
  - intros _. exists x. split; [by left|done].
  - exists y. split; [by right|done].
Qed.

Lemma for_of_return_true_false {A} (l : list A) (test : A → option bool) :
  for_of_return_true l test = Some false → ∀ x, x ∈ l → test x = Some false.
Proof.
  induction l as [|x l IH]; simpl; [by intros _ y ?%elem_of_nil|].
  destruct (test x) as [[]|] eqn:Hx; [done| |done].
  intros Hl y [->|Hy]%elem_of_cons; [done|by apply IH].
Qed.

Lemma has_inheritsFrom_false role :
  has_inheritsFrom role = false → default [] (inheritsFrom role) = [].
Proof.
  unfold has_inheritsFrom. by destruct (inheritsFrom role) as [[|pid parents]|].
Qed.

Section closure.
Context (allRoles : list Role).

(** The loop over the parents collects what the nested calls return. *)
Lemma parent_loop_elem (nested : Role → option (list string)) parents acc l claim :
  for_of parents
    (λ parentRoleId effectivePermissions,
       match find (λ r, bool_decide (role_id r = parentRoleId) && role_isActive r)
               allRoles with
       | Some parentRole =>
           match nested parentRole with
           | Some parentPermissions =>
               Some (Set_addAll effectivePermissions parentPermissions)
           | None => None
           end
       | None => Some effectivePermissions
       end) acc = Some l →
  (claim ∈ l ↔
     claim ∈ acc
     ∨ ∃ parentRoleId parent lp,
         parentRoleId ∈ parents
         ∧ find (λ r, bool_decide (role_id r = parentRoleId) && role_isActive r) allRoles
           = Some parent
         ∧ nested parent = Some lp ∧ claim ∈ lp)
  ∧ (∀ parentRoleId parent,
       parentRoleId ∈ parents →
       find (λ r, bool_decide (role_id r = parentRoleId) && role_isActive r) allRoles
       = Some parent →
       is_Some (nested parent)).
Proof.
  revert acc. induction parents as [|pid parents IH]; intros acc; simpl.
  - intros [= <-]. split.
    + split; [by left|]. intros [?|(? & ? & ? & ?%elem_of_nil & _)]; done.
    + by intros ? ? ?%elem_of_nil.
  - destruct (find _ allRoles) as [parent|] eqn:Hfind.
    + destruct (nested parent) as [lp|] eqn:Hn; [|done].
      intros [Hiff Hsome]%IH. split.
      * rewrite Hiff, elem_of_Set_addAll. split.
        -- intros [[?|?]|(pid' & p' & lp' & ? & ? & ? & ?)]; [by left|right..].
           ++ exists pid, parent, lp. repeat split; [by left|done..].
           ++ exists pid', p', lp'. repeat split; [by right|done..].
        -- intros [?|(pid' & p' & lp' & [->|?]%elem_of_cons & Hf & Hn' & ?)].
           ++ by left; left.
           ++ left; right. rewrite Hfind in Hf. injection Hf as <-.
              rewrite Hn in Hn'. by injection Hn' as <-.
           ++ right. by exists pid', p', lp'.
      * intros pid' p' [->|?]%elem_of_cons Hf; [|by eapply Hsome].
        rewrite Hfind in Hf. injection Hf as <-. by rewrite Hn.
    + intros [Hiff Hsome]%IH. split.
      * rewrite Hiff. split.
        -- intros [?|(pid' & p' & lp' & ? & ? & ? & ?)]; [by left|right].
           exists pid', p', lp'. repeat split; [by right|done..].
        -- intros [?|(pid' & p' & lp' & [->|?]%elem_of_cons & Hf & Hn' & ?)];
             [by left|congruence|right].
           by exists pid', p', lp'.
      * intros pid' p' [->|?]%elem_of_cons Hf; [congruence|by eapply Hsome].
Qed.

(** One unfolding of the traversal, in terms of [inherits]. *)
Lemma getRoleEffectivePermissions_rec_elem fuel role visited l :
  getRoleEffectivePermissions_rec (S fuel) role allRoles visited = Some l →
  role_id role ∉ visited →
  (∀ claim,
     claim ∈ l ↔
       claim ∈ permissions role
       ∨ ∃ parent lp,
           inherits allRoles role parent
           ∧ getRoleEffectivePermissions_rec fuel parent allRoles
               ({[role_id role]} ∪ visited) = Some lp
           ∧ claim ∈ lp)
  ∧ (∀ parent,
       inherits allRoles role parent →
       is_Some (getRoleEffectivePermissions_rec fuel parent allRoles
                  ({[role_id role]} ∪ visited))).
Proof.
  simpl. intros Hl Hv. rewrite bool_decide_false in Hl by done.
  destruct (has_inheritsFrom role) eqn:Hh.
  - pose proof (λ claim, parent_loop_elem _ _ _ _ claim Hl) as Hloop. split.
    + intros claim. destruct (Hloop claim) as [-> _]. rewrite elem_of_new_Set.
      unfold inherits. naive_solver.
    + intros parent (pid & Hpid & Hfind). destruct (Hloop "") as [_ Hsome]. eauto.
  - injection Hl as <-. pose proof (has_inheritsFrom_false _ Hh) as Hnil. split.
    + intros claim. rewrite elem_of_new_Set. split; [by left|].
      intros [?|(parent & lp & (pid & Hpid & _) & _)]; [done|].
      rewrite Hnil in Hpid. by apply elem_of_nil in Hpid.
    + intros parent (pid & Hpid & _). rewrite Hnil in Hpid. by apply elem_of_nil in Hpid.
Qed.

Lemma getRoleEffectivePermissions_rec_NoDup fuel role visited l :
  getRoleEffectivePermissions_rec fuel role allRoles visited = Some l → NoDup l.
Proof.
  destruct fuel as [|fuel]; [done|]. simpl.
  case_bool_decide; [intros [= <-]; apply NoDup_nil_2|].
  destruct (has_inheritsFrom role); [|intros [= <-]; apply NoDup_new_Set].
  apply for_of_invariant; [|apply NoDup_new_Set].
  intros pid s s'. destruct (find _ allRoles) as [parent|]; [|by intros [= <-]].
  destruct (getRoleEffectivePermissions_rec fuel parent allRoles _); [|done].
  intros [= <-]. apply NoDup_Set_addAll.
Qed.

Lemma inherits_found role parent :
  inherits allRoles role parent →
  parent ∈ allRoles ∧ role_isActive parent = true
  ∧ find (λ r, bool_decide (role_id r = role_id parent) && role_isActive r) allRoles
    = Some parent.
Proof.
  intros (pid & _ & Hfind).
  destruct (find_Some _ _ _ Hfind) as [Hin [Hid Hact]%andb_true_iff].
  apply bool_decide_eq_true in Hid. subst pid. done.
Qed.

Lemma reaches_avoiding_start visited role target :
  reaches_avoiding allRoles visited role target → role_id role ∉ visited.
Proof. by intros []. Qed.

Lemma reaches_avoiding_mono visited visited' role target :
  visited ⊆ visited' →
  reaches_avoiding allRoles visited' role target →
  reaches_avoiding allRoles visited role target.
Proof.
  intros Hsub. induction 1 as [role Hv|role parent target Hv Hi Hr IH].
  - apply reaches_here. set_solver.
  - eapply reaches_step; [set_solver|done..].
Qed.

Lemma reaches_avoiding_target visited role target :
  reaches_avoiding allRoles visited role target →
  target = role ∨ (target ∈ allRoles ∧ role_isActive target = true).
Proof.
  induction 1 as [role Hv|role parent target Hv Hi Hr IH]; [by left|].
  right. destruct IH as [->|?]; [|done].
  by destruct (inherits_found _ _ Hi) as (? & ? & _).
Qed.

Lemma reaches_avoiding_rtc role target :
  reaches_avoiding allRoles ∅ role target ↔ rtc (inherits allRoles) role target.
Proof.
  split.
  - induction 1; [done|by eapply rtc_l].
  - induction 1 as [role|role parent target Hi Hr IH].
    + apply reaches_here. set_solver.
    + eapply reaches_step; [set_solver|done..].
Qed.

(** Every claim the traversal returns is listed by a role it reaches. *)
Lemma getRoleEffectivePermissions_rec_sound fuel role visited l claim :
  getRoleEffectivePermissions_rec fuel role allRoles visited = Some l →
  claim ∈ l →
  ∃ target, reaches_avoiding allRoles visited role target ∧ claim ∈ permissions target.
Proof.
  revert role visited l. induction fuel as [|fuel IH]; intros role visited l Hl Hc; [done|].
  destruct (decide (role_id role ∈ visited)) as [Hv|Hv].
  { simpl in Hl. rewrite bool_decide_true in Hl by done. injection Hl as <-.
    by apply elem_of_nil in Hc. }
  destruct (getRoleEffectivePermissions_rec_elem _ _ _ _ Hl Hv) as [Hiff _].
  apply Hiff in Hc as [Hc|(parent & lp & Hi & Hlp & Hc)].
  - exists role. split; [by apply reaches_here|done].
  - destruct (IH _ _ _ Hlp Hc) as (target & Hr & Ht).
    exists target. split; [|done].
    eapply reaches_step; [done..|].
    eapply reaches_avoiding_mono; [|done]. set_solver.
Qed.

(** The part of a path after its last visit to the role [x]. *)
Lemma reaches_avoiding_tail visited role target x :
  reaches_avoiding allRoles visited role target →
  (role_id role = role_id x → role = x) →
  answers_to_own_id allRoles x →
  reaches_avoiding allRoles ({[role_id x]} ∪ visited) role target
  ∨ target = x
  ∨ ∃ parent, inherits allRoles x parent
              ∧ reaches_avoiding allRoles ({[role_id x]} ∪ visited) parent target.
Proof.
  intros Hr Hstart Hx.
  induction Hr as [role Hv|role parent target Hv Hi Hr IH].
  - destruct (decide (role_id role = role_id x)) as [Heq|Hne].
    + right; left. by apply Hstart.
    + left. apply reaches_here. set_solver.
  - assert (role_id parent = role_id x → parent = x) as Hp.
    { intros Heq. destruct (inherits_found _ _ Hi) as (_ & _ & Hfind).
      rewrite Heq in Hfind. by apply Hx in Hfind. }
    destruct (IH Hp) as [IH'|[IH'|IH']]; [|by right; left|by right; right].
    destruct (decide (role_id role = role_id x)) as [Heq|Hne].
    + right; right. apply Hstart in Heq as ->. by exists parent.
    + left. eapply reaches_step; [set_solver|done..].
Qed.

(** Every claim of a role the traversal can reach is returned. *)
Lemma getRoleEffectivePermissions_rec_complete fuel role visited target l claim :
  (S (unvisited allRoles role visited) < fuel)%nat →
  answers_to_own_id allRoles role →
  reaches_avoiding allRoles visited role target →
  claim ∈ permissions target →
  getRoleEffectivePermissions_rec fuel role allRoles visited = Some l →
  claim ∈ l.
Proof.
  revert role visited target l.
  induction fuel as [|fuel IH]; intros role visited target l Hf Hown Hr Hc Hl; [lia|].
  pose proof (reaches_avoiding_start _ _ _ Hr) as Hv.
  destruct (getRoleEffectivePermissions_rec_elem _ _ _ _ Hl Hv) as [Hiff Hsome].
  apply Hiff.
  destruct (reaches_avoiding_tail _ _ _ role Hr) as [Hbad|[->|(parent & Hi & Hp)]];
    [done|done| |by left|].
  { apply reaches_avoiding_start in Hbad. set_solver. }
  right. destruct (Hsome parent Hi) as [lp Hlp]. exists parent, lp.
  split; [done|]. split; [done|].
  destruct (inherits_found _ _ Hi) as (Hin & _ & Hfind).
  pose proof (reaches_avoiding_start _ _ _ Hp) as Hpv.
  eapply (IH parent); [|intros other Ho; congruence|done..].
  pose proof (unvisited_parent allRoles role parent visited Hin Hpv). lia.
Qed.

End closure.

Lemma answers_to_own_id_unique allRoles role :
  NoDup (role_id <$> allRoles) → role ∈ allRoles → answers_to_own_id allRoles role.
Proof.
  intros Hids Hin other [Ho [Hid _]%andb_true_iff]%find_Some.
  apply bool_decide_eq_true in Hid. by eapply NoDup_fmap_elem_eq.
Qed.

(** X12.  For every role and role set, [getRoleEffectivePermissions] returns
    a list without duplicates that contains the role's own permissions, and
    every claim in it is listed by the role itself or by an active role of
    the role set: an inactive role contributes nothing through inheritance. *)
Theorem getRoleEffectivePermissions_members role allRoles :
  ∃ l,
    getRoleEffectivePermissions role allRoles = Some l
    ∧ NoDup l
    ∧ permissions role ⊆ l
    ∧ ∀ claim, claim ∈ l →
        claim ∈ permissions role
        ∨ ∃ source, source ∈ allRoles ∧ role_isActive source = true
                    ∧ claim ∈ permissions source.
Proof.
  unfold getRoleEffectivePermissions.
  destruct (getRoleEffectivePermissions_rec_total allRoles _ role ∅
              (recursion_budget_enough allRoles role)) as [l Hl].
  exists l. split; [done|]. split; [by eapply getRoleEffectivePermissions_rec_NoDup|].
  split.
  - eapply getRoleEffectivePermissions_rec_direct; [done|set_solver].
  - intros claim Hc.
    destruct (getRoleEffectivePermissions_rec_sound _ _ _ _ _ _ Hl Hc) as (target & Hr & Ht).
    destruct (reaches_avoiding_target _ _ _ _ Hr) as [->|[? ?]]; [by left|right].
    by exists target.
Qed.

(** X13.  [getRoleEffectivePermissions] computes the transitive closure of
    inheritance: when no other active role of the role set answers to the
    queried role's id (as with unique ids), the result holds exactly the
    claims listed by the roles reachable from the queried role through
    [inheritsFrom] references to active roles, cycles included. *)
Theorem getRoleEffectivePermissions_closure role allRoles :
  answers_to_own_id allRoles role →
  ∃ l,
    getRoleEffectivePermissions role allRoles = Some l
    ∧ ∀ claim,
        claim ∈ l ↔
          ∃ target, rtc (inherits allRoles) role target ∧ claim ∈ permissions target.
Proof.
  intros Hown. unfold getRoleEffectivePermissions.
  destruct (getRoleEffectivePermissions_rec_total allRoles _ role ∅
              (recursion_budget_enough allRoles role)) as [l Hl].
  exists l. split; [done|]. intros claim. split.
  - intros Hc.
    destruct (getRoleEffectivePermissions_rec_sound _ _ _ _ _ _ Hl Hc) as (target & Hr & Ht).
    exists target. split; [by apply reaches_avoiding_rtc|done].
  - intros (target & Hr%reaches_avoiding_rtc & Ht).
    eapply getRoleEffectivePermissions_rec_complete; [|done..].
    apply recursion_budget_enough.
Qed.

Lemma getRoleEffectivePermissions_closure_witness :
  ∃ l,
    getRoleEffectivePermissions Examples.helpdesk
      [Examples.tech_director; Examples.helpdesk] = Some l
    ∧ ∀ claim,
        claim ∈ l ↔
          ∃ target,
            rtc (inherits [Examples.tech_director; Examples.helpdesk])
              Examples.helpdesk target
            ∧ claim ∈ permissions target.
Proof.
  apply getRoleEffectivePermissions_closure, answers_to_own_id_unique.
  - apply (bool_decide_unpack _). by vm_compute.
  - rewrite !elem_of_cons. auto.
Defined.

(** A necessary hypothesis: with another active role under the queried
    role's id, a reachable claim can be missed. *)
Lemma getRoleEffectivePermissions_closure_needs_own_id :
  let impostor := {| role_id := "finance"; role_name := "Finance (new)";
                     inheritsFrom := Some ["auditor"]; permissions := [];
                     role_isActive := true |} in
  let queried := {| role_id := "finance"; role_name := "Finance";
                    inheritsFrom := Some ["helper"]; permissions := [];
                    role_isActive := true |} in
  let helper := {| role_id := "helper"; role_name := "Helper";
                   inheritsFrom := Some ["finance"]; permissions := [];
                   role_isActive := true |} in
  let allRoles := [impostor; helper; Examples.auditor_new] in
  getRoleEffectivePermissions queried allRoles = Some []
  ∧ rtc (inherits allRoles) queried Examples.auditor_new
  ∧ "report:view:all" ∈ permissions Examples.auditor_new.
Proof.
  intros impostor queried helper allRoles.
  split; [by vm_compute|]. split; [|by left].
  apply rtc_l with helper; [by exists "helper"; split; [left|]|].
  apply rtc_l with impostor; [by exists "finance"; split; [left|]|].
  apply rtc_once. by exists "auditor"; split; [left|].
Qed.

(** ** The membership check *)

Lemma roleHasPermission_rec_true allRoles fuel role permissionToCheck visited :
  roleHasPermission_rec fuel role permissionToCheck allRoles visited = Some true →
  role_isActive role = true
  ∧ (permissionToCheck ∈ permissions role
     ∨ ∃ source, source ∈ allRoles ∧ role_isActive source = true
                 ∧ permissionToCheck ∈ permissions source).
Proof.
  revert role visited. induction fuel as [|fuel IH]; intros role visited; [done|].
  simpl. case_bool_decide; [done|].
  destruct (role_isActive role) eqn:Hact; [|done]. simpl.
  unfold includes. case_bool_decide as Hinc; [by intros _; split; [|left]|].
  destruct (has_inheritsFrom role); [|done].
  intros (pid & _ & Htest)%for_of_return_true_true. split; [done|right].
  destruct (find _ allRoles) as [parent|] eqn:Hfind; [|done].
  apply find_Some in Hfind as [Hin _].
  destruct (IH _ _ Htest) as [Hpact [Hp|(source & ? & ? & ?)]].
  - by exists parent.
  - by exists source.
Qed.

(** X14.  [roleHasPermission] grants only through active roles: when it
    returns true the queried role is active and the claim is listed by it or
    by an active role of the role set; and it returns true whenever the
    queried role is active and lists the claim itself. *)
Theorem roleHasPermission_grants role permissionToCheck allRoles :
  ∃ b,
    roleHasPermission role permissionToCheck allRoles = Some b
    ∧ (b = true →
       role_isActive role = true
       ∧ (permissionToCheck ∈ permissions role
          ∨ ∃ source, source ∈ allRoles ∧ role_isActive source = true
                      ∧ permissionToCheck ∈ permissions source))
    ∧ (role_isActive role = true → permissionToCheck ∈ permissions role → b = true).
Proof.
  unfold roleHasPermission.
  destruct (roleHasPermission_rec_total allRoles _ role permissionToCheck ∅
              (recursion_budget_enough allRoles role)) as [b Hb].
  exists b. split; [done|]. split.
  - intros ->. by eapply roleHasPermission_rec_true.
  - intros Hact Hin. unfold recursion_budget in Hb. simpl in Hb.
    rewrite bool_decide_false in Hb by set_solver.
    rewrite Hact in Hb. simpl in Hb. unfold includes in Hb.
    rewrite bool_decide_true in Hb by done. by injection Hb as <-.
Qed.

Lemma roleHasPermission_grants_witness :
  ∃ b,
    roleHasPermission Examples.finance "report:view:all"
      [Examples.finance; Examples.auditor_new] = Some b
    ∧ (b = true →
       role_isActive Examples.finance = true
       ∧ ("report:view:all" ∈ permissions Examples.finance
          ∨ ∃ source, source ∈ [Examples.finance; Examples.auditor_new]
                      ∧ role_isActive source = true
                      ∧ "report:view:all" ∈ permissions source)).
Proof.
  destruct (roleHasPermission_grants Examples.finance "report:view:all"
              [Examples.finance; Examples.auditor_new]) as (b & Hb & Htrue & _).
  by exists b.
Defined.

(** ** The effective permissions of a principal *)

Lemma elem_of_roles_of user allRoles role :
  role ∈ roles_of user allRoles ↔
    role ∈ allRoles ∧ role_id role ∈ roles user ∧ role_isActive role = true.
Proof.
  unfold roles_of, includes. rewrite list_elem_of_In, filter_In, andb_true_iff.
  by rewrite bool_decide_eq_true, <- list_elem_of_In.
Qed.

Lemma role_permissions_loop_elem allRoles (userRoles : list Role) acc l claim :
  for_of userRoles
    (λ role effectivePermissions,
       match getRoleEffectivePermissions role allRoles with
       | Some rolePermissions => Some (Set_addAll effectivePermissions rolePermissions)
       | None => None
       end) acc = Some l →
  claim ∈ l ↔
    claim ∈ acc
    ∨ ∃ role rolePermissions,
        role ∈ userRoles
        ∧ getRoleEffectivePermissions role allRoles = Some rolePermissions
        ∧ claim ∈ rolePermissions.
Proof.
  revert acc. induction userRoles as [|role userRoles IH]; intros acc; simpl.
  - intros [= <-]. split; [by left|]. intros [?|(? & ? & ?%elem_of_nil & _)]; done.
  - destruct (getRoleEffectivePermissions role allRoles) as [rp|] eqn:Hrp; [|done].
    intros ->%IH. rewrite elem_of_Set_addAll. split.
    + intros [[?|?]|(role' & rp' & ? & ? & ?)]; [by left|right..].
      * exists role, rp. repeat split; [by left|done..].
      * exists role', rp'. repeat split; [by right|done..].
    + intros [?|(role' & rp' & [->|?]%elem_of_cons & Hrp' & ?)].
      * by left; left.
      * left; right. rewrite Hrp in Hrp'. by injection Hrp' as <-.
      * right. by exists role', rp'.
Qed.

(** The enumeration without sorting. *)
Lemma getUserEffectivePermissions_unsorted user allRoles options :
  sortByRisk options ≠ Some true →
  ∃ l,
    getUserEffectivePermissions user allRoles options = Some l
    ∧ NoDup l
    ∧ ∀ claim,
        claim ∈ l ↔
          claim ∈ default [] (directPermissions user)
          ∨ ∃ role rolePermissions,
              role ∈ roles_of user allRoles
              ∧ getRoleEffectivePermissions role allRoles = Some rolePermissions
              ∧ claim ∈ rolePermissions.
Proof.
  intros Hsort. unfold getUserEffectivePermissions. fold (roles_of user allRoles).
  destruct (for_of_is_Some (roles_of user allRoles)
              (λ role effectivePermissions,
                 match getRoleEffectivePermissions role allRoles with
                 | Some rolePermissions =>
                     Some (Set_addAll effectivePermissions rolePermissions)
                 | None => None
                 end) (new_Set (default [] (directPermissions user)))) as [l Hl].
  { intros role acc _. unfold getRoleEffectivePermissions.
    destruct (getRoleEffectivePermissions_rec_total allRoles _ role ∅
                (recursion_budget_enough allRoles role)) as [rp ->].
    by eexists. }
  rewrite Hl. rewrite bool_decide_false by done. simpl.
  exists l. split; [done|]. split.
  - revert Hl. apply for_of_invariant; [|apply NoDup_new_Set].
    intros role s s'. destruct (getRoleEffectivePermissions role allRoles); [|done].
    intros [= <-]. apply NoDup_Set_addAll.
  - intros claim. rewrite (role_permissions_loop_elem _ _ _ _ claim Hl).
    by rewrite elem_of_new_Set.
Qed.

(** X15.  Without sorting, [getUserEffectivePermissions] returns, free of
    duplicates, exactly the principal's direct permissions together with the
    effective permissions of every active role of the role set whose id the
    principal holds. *)
Theorem getUserEffectivePermissions_members user allRoles options :
  sortByRisk options ≠ Some true →
  ∃ l,
    getUserEffectivePermissions user allRoles options = Some l
    ∧ NoDup l
    ∧ ∀ claim,
        claim ∈ l ↔
          claim ∈ default [] (directPermissions user)
          ∨ ∃ role rolePermissions,
              role ∈ allRoles ∧ role_id role ∈ roles user ∧ role_isActive role = true
              ∧ getRoleEffectivePermissions role allRoles = Some rolePermissions
              ∧ claim ∈ rolePermissions.
Proof.
  intros Hsort.
  destruct (getUserEffectivePermissions_unsorted user allRoles options Hsort)
    as (l & Hl & Hnd & Hiff).
  exists l. split; [done|]. split; [done|]. intros claim. rewrite Hiff.
  split.
  - intros [?|(role & rp & Hr & ? & ?)]; [by left|right]. exists role, rp.
    apply elem_of_roles_of in Hr as (? & ? & ?). done.
  - intros [?|(role & rp & ? & ? & ? & ? & ?)]; [by left|right]. exists role, rp.
    split; [|done]. by apply elem_of_roles_of.
Qed.

Lemma getUserEffectivePermissions_members_witness :
  ∃ l,
    getUserEffectivePermissions Examples.robert_wilson [Examples.service_specialist]
      Examples.no_options = Some l
    ∧ NoDup l
    ∧ ∀ claim,
        claim ∈ l ↔
          claim ∈ default [] (directPermissions Examples.robert_wilson)
          ∨ ∃ role rolePermissions,
              role ∈ [Examples.service_specialist]
              ∧ role_id role ∈ roles Examples.robert_wilson
              ∧ role_isActive role = true
              ∧ getRoleEffectivePermissions role [Examples.service_specialist]
                = Some rolePermissions
              ∧ claim ∈ rolePermissions.
Proof. by apply getUserEffectivePermissions_members. Defined.

(** ** Sorting by risk *)

Lemma insert_by_risk_perm x l : insert_by_risk x l ≡ₚ x :: l.
Proof.
  induction l as [|y l IH]; simpl; [done|].
  case_bool_decide; [done|]. rewrite IH. apply Permutation_swap.
Qed.

Lemma insert_by_risk_sorted x l :
  Sorted (λ a b, claim_rank b ≤ claim_rank a) l →
  Sorted (λ a b, claim_rank b ≤ claim_rank a) (insert_by_risk x l).
Proof.
  induction l as [|y l IH]; simpl; intros Hs.
  - by repeat constructor.
  - case_bool_decide as Hxy.
    + constructor; [done|]. constructor. lia.
    + apply Sorted_inv in Hs as [Hs Hhd]. constructor; [by apply IH|].
      destruct l as [|z l]; simpl.
      * constructor. lia.
      * case_bool_decide; constructor; [lia|]. by apply HdRel_inv in Hhd.
Qed.

Lemma sort_loop_sorted l acc :
  Sorted (λ a b, claim_rank b ≤ claim_rank a) acc →
  Sorted (λ a b, claim_rank b ≤ claim_rank a)
    (foldl (λ sorted x, insert_by_risk x sorted) acc l)
  ∧ foldl (λ sorted x, insert_by_risk x sorted) acc l ≡ₚ acc ++ l.
Proof.
  revert acc. induction l as [|x l IH]; intros acc Hs; simpl.
  - by rewrite app_nil_r.
  - destruct (IH (insert_by_risk x acc)) as [H1 H2]; [by apply insert_by_risk_sorted|].
    split; [done|]. rewrite H2, insert_by_risk_perm. simpl. apply Permutation_middle.
Qed.

Lemma comparator_throws_None l :
  comparator_throws l = None ↔
    Forall (λ claim, ∃ triple, parsePermissionClaim claim = Return triple) l.
Proof.
  induction l as [|x l IH]; simpl; [by split; [constructor|]|].
  rewrite Forall_cons. unfold claim_riskOrder.
  destruct (parsePermissionClaim x) as [[[r a] sc]|e].
  - rewrite IH. split; [|by intros [_ ?]]. split; [by eexists|done].
  - split; [done|]. by intros [[t Ht] _].
Qed.

(** X16.  With [sortByRisk], [getUserEffectivePermissions] returns the same
    claims as without it, reordered so that the risk of the action never
    increases along the list, provided every claim parses; with two or more
    claims of which one does not parse it returns the empty list; a list of
    fewer than two claims is returned as it is. *)
Theorem getUserEffectivePermissions_sorted user allRoles options options' l :
  sortByRisk options = Some true →
  sortByRisk options' ≠ Some true →
  getUserEffectivePermissions user allRoles options' = Some l →
  ∃ l',
    getUserEffectivePermissions user allRoles options = Some l'
    ∧ ((length l < 2)%nat → l' = l)
    ∧ ((2 ≤ length l)%nat →
       Forall (λ claim, ∃ triple, parsePermissionClaim claim = Return triple) l →
       l' ≡ₚ l ∧ Sorted (λ a b, claim_rank b ≤ claim_rank a) l')
    ∧ ((2 ≤ length l)%nat →
       ¬ Forall (λ claim, ∃ triple, parsePermissionClaim claim = Return triple) l →
       l' = []).
Proof.
  intros Hon Hoff. unfold getUserEffectivePermissions.
  destruct (for_of _ _ _) as [p|]; [|done].
  rewrite Hon, (bool_decide_false (sortByRisk options' = _)) by done.
  rewrite bool_decide_true by done. simpl. intros [= <-].
  unfold sort_by_risk. case_bool_decide as Hlen.
  - exists p. repeat split; intros; try done; lia.
  - destruct (comparator_throws p) as [e|] eqn:Hthrow; simpl.
    + exists []. split; [done|]. split; [lia|]. split; [|done].
      intros _ Hall%comparator_throws_None. congruence.
    + apply comparator_throws_None in Hthrow.
      destruct (sort_loop_sorted p []) as [Hs Hp]; [constructor|].
      eexists. split; [reflexivity|]. split; [lia|]. split; [done|].
      by intros _ [].
Qed.

Lemma getUserEffectivePermissions_sorted_witness :
  ∃ l',
    getUserEffectivePermissions
      {| user_id := "user-tech-002"; roles := ["tech-director"];
         directPermissions := None; user_isActive := true |}
      [Examples.tech_director]
      {| includeInherited := None; groupByResource := None; sortByRisk := Some true |}
    = Some l'
    ∧ ((length (permissions Examples.tech_director) < 2)%nat →
       l' = permissions Examples.tech_director)
    ∧ ((2 ≤ length (permissions Examples.tech_director))%nat →
       Forall (λ claim, ∃ triple, parsePermissionClaim claim = Return triple)
         (permissions Examples.tech_director) →
       l' ≡ₚ permissions Examples.tech_director
       ∧ Sorted (λ a b, claim_rank b ≤ claim_rank a) l')
    ∧ ((2 ≤ length (permissions Examples.tech_director))%nat →
       ¬ Forall (λ claim, ∃ triple, parsePermissionClaim claim = Return triple)
           (permissions Examples.tech_director) →
       l' = []).
Proof.
  apply (getUserEffectivePermissions_sorted _ _ _ Examples.no_options); [done..|].
  by vm_compute.
Defined.

(** ** The decision engine and its cache *)

Lemma fresh_verdict_total user claim allRoles : is_Some (fresh_verdict user claim allRoles).
Proof.
  unfold fresh_verdict. destruct (includes _ claim); [by eexists|].
  apply role_loop_total.
Qed.

(** [hasPermission] for an active principal and an accepted triple. *)
Lemma hasPermission_active u resource action scope allRoles options now cache claim :
  user_isActive u = true →
  createPermissionClaim resource action scope = Return claim →
  hasPermission (Some u) resource action scope allRoles options now cache =
    match (if useCache_on options
           then live_verdict now (cache !! cacheKey (user_id u) claim)
           else None) with
    | Some verdict => Some (Return verdict, cache)
    | None =>
        match fresh_verdict u claim allRoles with
        | Some hasAccess =>
            Some (Return hasAccess,
                  if useCache_on options
                  then <[cacheKey (user_id u) claim :=
                           {| result := hasAccess; timestamp := now |}]> cache
                  else cache)
        | None => None
        end
    end.
Proof.
  intros Hact Hclaim. unfold hasPermission. rewrite Hact, Hclaim. simpl.
  destruct (fresh_verdict_total u claim allRoles) as [hasAccess Hfresh].
  assert ((if includes (default [] (directPermissions u)) claim
           then mret true
           else
             let userRoles :=
               List.filter (λ role, includes (roles u) (role_id role) && role_isActive role)
                 allRoles in
             liftO (for_of_return_true userRoles
                      (λ role, roleHasPermission role claim allRoles))) cache
          = Some (Return hasAccess, cache)) as Haccess.
  { revert Hfresh. unfold fresh_verdict, roles_of.
    destruct (includes _ claim); [by intros [= <-]|]. simpl. unfold liftO.
    by intros ->. }
  rewrite Hfresh.
  destruct (if useCache_on options
            then live_verdict now (cache !! cacheKey (user_id u) claim)
            else None) as [verdict|] eqn:Hhit.
  - apply try_catchM_returns.
    rewrite (bind_returns _ _ cache claim cache eq_refl).
    rewrite (bind_returns _ _ _ _ _ (cache_lookup_returns _ _ _ _)).
    by rewrite Hhit.
  - apply try_catchM_returns.
    rewrite (bind_returns _ _ cache claim cache eq_refl).
    rewrite (bind_returns _ _ _ _ _ (cache_lookup_returns _ _ _ _)).
    rewrite Hhit.
    rewrite (bind_returns _ _ _ _ _ Haccess).
    rewrite (bind_returns _ _ _ _ _ (cache_store_returns _ _ _ _)).
    rewrite (bind_returns _ _ _ _ _ (logAccess_returns _ _ _ _ _ _ _)).
    reflexivity.
Qed.

(** [hasPermission] when it ends before the claim is looked up. *)
Lemma hasPermission_early user resource action scope allRoles options now cache :
  ends_early user resource action scope →
  hasPermission user resource action scope allRoles options now cache
  = Some (Return false, cache).
Proof.
  intros Hearly.
  destruct (hasPermission_returns user resource action scope allRoles options now cache)
    as (b & cache' & -> & Hb).
  by destruct (Hb Hearly) as [-> ->].
Qed.

(** X17.  An absent or inactive principal is denied whatever the cache
    holds, and the cache is left as it was. *)
Theorem hasPermission_inactive user resource action scope allRoles options now cache :
  match user with
  | Some u => user_isActive u = false
  | None => True
  end →
  hasPermission user resource action scope allRoles options now cache
  = Some (Return false, cache).
Proof.
  intros Hu. apply hasPermission_early. unfold ends_early.
  destruct user; [by left|done].
Qed.

Lemma hasPermission_inactive_witness :
  let cache : Cache :=
    {[ cacheKey "user-inact-006" "member:view:assigned"
       := {| result := true; timestamp := 0 |} ]} in
  hasPermission (Some Examples.robert_wilson) "member" "view" "assigned"
    [Examples.service_specialist] Examples.default_options 1 cache
  = Some (Return false, cache).
Proof. intros cache. by apply hasPermission_inactive. Defined.

(** X18.  With caching on, a cache entry younger than five minutes decides
    the call: its verdict is returned whatever the principal's current roles
    and direct permissions are, and the cache is not written. *)
Theorem hasPermission_cache_hit u resource action scope allRoles options now cache
    claim entry :
  user_isActive u = true →
  createPermissionClaim resource action scope = Return claim →
  useCache options ≠ Some false →
  cache !! cacheKey (user_id u) claim = Some entry →
  now - timestamp entry < 300000 →
  hasPermission (Some u) resource action scope allRoles options now cache
  = Some (Return (result entry), cache).
Proof.
  intros Hact Hclaim Hon Hentry Hlive.
  rewrite (hasPermission_active _ _ _ _ _ _ _ _ _ Hact Hclaim).
  unfold useCache_on. rewrite bool_decide_false by done. simpl.
  rewrite Hentry. simpl. by rewrite bool_decide_true.
Qed.

Lemma hasPermission_cache_hit_witness :
  let cache : Cache :=
    {[ cacheKey "user-exec-001" "billing:view:all"
       := {| result := true; timestamp := 1000 |} ]} in
  hasPermission (Some Examples.sarah) "billing" "view" "all" []
    Examples.default_options 300999 cache
  = Some (Return true, cache).
Proof.
  intros cache.
  by apply (hasPermission_cache_hit Examples.sarah "billing" "view" "all" []
              Examples.default_options 300999 cache "billing:view:all"
              {| result := true; timestamp := 1000 |}).
Defined.

(** X19.  With caching on and no entry younger than five minutes under the
    key of the principal and the claim, [hasPermission] returns the verdict
    that the same call with caching off returns, and stores it under that
    key with the current time; the call with caching off leaves the cache as
    it was. *)
Theorem hasPermission_cache_miss u resource action scope allRoles options options' now
    cache claim :
  user_isActive u = true →
  createPermissionClaim resource action scope = Return claim →
  useCache options ≠ Some false →
  useCache options' = Some false →
  (∀ entry, cache !! cacheKey (user_id u) claim = Some entry →
            300000 ≤ now - timestamp entry) →
  ∃ b,
    hasPermission (Some u) resource action scope allRoles options' now cache
    = Some (Return b, cache)
    ∧ hasPermission (Some u) resource action scope allRoles options now cache
      = Some (Return b,
              <[cacheKey (user_id u) claim := {| result := b; timestamp := now |}]> cache).
Proof.
  intros Hact Hclaim Hon Hoff Hold.
  rewrite !(hasPermission_active _ _ _ _ _ _ _ _ _ Hact Hclaim).
  unfold useCache_on. rewrite (bool_decide_false (useCache options = _)) by done.
  rewrite (bool_decide_true (useCache options' = _)) by done. simpl.
  destruct (fresh_verdict_total u claim allRoles) as [b ->]. exists b.
  split; [done|].
  destruct (cache !! cacheKey (user_id u) claim) as [entry|] eqn:Hentry; simpl; [|done].
  rewrite bool_decide_false; [done|]. specialize (Hold entry eq_refl).
  unfold CACHE_TTL. lia.
Qed.

Lemma hasPermission_cache_miss_witness :
  let cache : Cache :=
    {[ cacheKey "user-exec-001" "billing:view:all"
       := {| result := true; timestamp := 1000 |} ]} in
  ∃ b,
    hasPermission (Some Examples.sarah) "billing" "view" "all" []
      {| logAccess := None; checkExpiry := None; useCache := Some false |} 301000 cache
    = Some (Return b, cache)
    ∧ hasPermission (Some Examples.sarah) "billing" "view" "all" []
        Examples.default_options 301000 cache
      = Some (Return b,
              <[cacheKey "user-exec-001" "billing:view:all"
                := {| result := b; timestamp := 301000 |}]> cache).
Proof.
  intros cache.
  apply (hasPermission_cache_miss Examples.sarah "billing" "view" "all" []
           Examples.default_options _ 301000 cache "billing:view:all"); try done.
  intros entry. unfold cache. rewrite lookup_singleton_eq. intros [= <-]. simpl. lia.
Defined.

(** X20.  A computed verdict is memoized: after a call with caching on that
    found no entry younger than five minutes, every later call for a
    principal with the same id and the same triple, made less than five
    minutes afterwards with caching on, returns the same verdict, whatever
    roles and direct permissions it is given. *)
Theorem hasPermission_memoized u u' resource action scope roles1 roles2 options1 options2
    now1 now2 cache claim b cache1 :
  user_isActive u = true → user_isActive u' = true → user_id u' = user_id u →
  createPermissionClaim resource action scope = Return claim →
  useCache options1 ≠ Some false → useCache options2 ≠ Some false →
  (∀ entry, cache !! cacheKey (user_id u) claim = Some entry →
            300000 ≤ now1 - timestamp entry) →
  hasPermission (Some u) resource action scope roles1 options1 now1 cache
  = Some (Return b, cache1) →
  now2 - now1 < 300000 →
  hasPermission (Some u') resource action scope roles2 options2 now2 cache1
  = Some (Return b, cache1).
Proof.
  intros Hact Hact' Hid Hclaim Hon1 Hon2 Hold Hfirst Hsoon.
  rewrite (hasPermission_active _ _ _ _ _ _ _ _ _ Hact Hclaim) in Hfirst.
  rewrite (hasPermission_active _ _ _ _ _ _ _ _ _ Hact' Hclaim).
  unfold useCache_on in *.
  rewrite (bool_decide_false (useCache options1 = _)) in Hfirst by done.
  rewrite (bool_decide_false (useCache options2 = _)) by done. simpl in *.
  assert (live_verdict now1 (cache !! cacheKey (user_id u) claim) = None) as Hmiss.
  { destruct (cache !! cacheKey (user_id u) claim) as [entry|] eqn:Hentry; [|done].
    simpl. rewrite bool_decide_false; [done|]. specialize (Hold entry eq_refl).
    unfold CACHE_TTL. lia. }
  rewrite Hmiss in Hfirst.
  destruct (fresh_verdict u claim roles1) as [b'|]; [|done].
  injection Hfirst as <- <-. rewrite Hid, lookup_insert_eq. simpl.
  by rewrite bool_decide_true by (unfold CACHE_TTL; lia).
Qed.

Lemma hasPermission_memoized_witness :
  let cache1 : Cache :=
    {[ cacheKey "user-exec-001" "billing:view:all"
       := {| result := false; timestamp := 5000 |} ]} in
  hasPermission
    (Some {| user_id := "user-exec-001"; roles := [];
             directPermissions := Some ["billing:view:all"]; user_isActive := true |})
    "billing" "view" "all" [] Examples.default_options 6000 cache1
  = Some (Return false, cache1).
Proof.
  intros cache1.
  apply (hasPermission_memoized Examples.sarah _ "billing" "view" "all" [] []
           Examples.default_options Examples.default_options 5000 6000 ∅
           "billing:view:all"); try done.
Defined.

(** X21.  [hasPermission] touches at most one cache entry, the one under the
    key of its own principal and claim, and none at all with caching off. *)
Theorem hasPermission_cache_frame user resource action scope allRoles options now cache
    outcome cache' :
  hasPermission user resource action scope allRoles options now cache
  = Some (outcome, cache') →
  (useCache options = Some false → cache' = cache)
  ∧ ∀ key,
      (∀ u claim, user = Some u →
                  createPermissionClaim resource action scope = Return claim →
                  key ≠ cacheKey (user_id u) claim) →
      cache' !! key = cache !! key.
Proof.
  destruct user as [u|]; [destruct (user_isActive u) eqn:Hact|].
  - destruct (createPermissionClaim resource action scope) as [claim|e] eqn:Hclaim.
    + rewrite (hasPermission_active _ _ _ _ _ _ _ _ _ Hact Hclaim).
      unfold useCache_on. case_bool_decide as Hoff; simpl.
      * destruct (fresh_verdict u claim allRoles); [|done]. by intros [= <- <-].
      * destruct (live_verdict now _); [by intros [= <- <-]|].
        destruct (fresh_verdict u claim allRoles); [|done]. intros [= <- <-].
        split; [done|]. intros key Hkey. apply lookup_insert_ne.
        intros Heq. by apply (Hkey u claim).
    + rewrite hasPermission_early by (right; by exists e). by intros [= <- <-].
  - rewrite hasPermission_early by by left. by intros [= <- <-].
  - rewrite hasPermission_early by done. by intros [= <- <-].
Qed.

Lemma hasPermission_cache_frame_witness :
  (<[cacheKey "user-exec-001" "billing:view:all"
     := {| result := false; timestamp := 0 |}]> Examples.two_principals)
    !! cacheKey "a" "member:view:all"
  = Examples.two_principals !! cacheKey "a" "member:view:all".
Proof.
  apply (hasPermission_cache_frame (Some Examples.sarah) "billing" "view" "all" []
           Examples.default_options 0 Examples.two_principals (Return false)).
  - by vm_compute.
  - intros u claim [= <-] [= <-]. done.
Defined.

(** X22.  Invalidation forces a fresh decision: after
    [clearPermissionCache] with the principal's non-empty id, the next call
    with caching on returns the verdict that a call with caching off
    returns. *)
Theorem hasPermission_after_clear u resource action scope allRoles options options' now
    cache claim :
  user_isActive u = true →
  user_id u ≠ "" →
  createPermissionClaim resource action scope = Return claim →
  useCache options' = Some false →
  ∃ b cache',
    hasPermission (Some u) resource action scope allRoles options' now cache
    = Some (Return b, cache)
    ∧ hasPermission (Some u) resource action scope allRoles options now
        (clearPermissionCache (Some (user_id u)) cache)
      = Some (Return b, cache').
Proof.
  intros Hact Hid Hclaim Hoff.
  rewrite !(hasPermission_active _ _ _ _ _ _ _ _ _ Hact Hclaim).
  rewrite clearPermissionCache_lookup by done.
  rewrite cacheKey_own_principal.
  destruct (fresh_verdict_total u claim allRoles) as [b ->].
  exists b. unfold useCache_on. rewrite (bool_decide_true (useCache options' = _)) by done.
  simpl. destruct (negb _); by eexists.
Qed.

Lemma hasPermission_after_clear_witness :
  let cache : Cache :=
    {[ cacheKey "user-exec-001" "billing:view:all"
       := {| result := true; timestamp := 0 |} ]} in
  ∃ b cache',
    hasPermission (Some Examples.sarah) "billing" "view" "all" []
      {| logAccess := None; checkExpiry := None; useCache := Some false |} 1 cache
    = Some (Return b, cache)
    ∧ hasPermission (Some Examples.sarah) "billing" "view" "all" []
        Examples.default_options 1 (clearPermissionCache (Some "user-exec-001") cache)
      = Some (Return b, cache').
Proof.
  intros cache.
  by apply (hasPermission_after_clear Examples.sarah "billing" "view" "all" []
              Examples.default_options _ 1 cache "billing:view:all").
Defined.

(** X23.  Direct permissions take precedence: an active principal whose
    direct permissions list the claim is granted, for every role set, unless
    the cache is on and holds a denial younger than five minutes. *)
Theorem hasPermission_direct u resource action scope allRoles options now cache claim :
  user_isActive u = true →
  createPermissionClaim resource action scope = Return claim →
  claim ∈ default [] (directPermissions u) →
  (∀ entry, useCache options ≠ Some false →
            cache !! cacheKey (user_id u) claim = Some entry →
            now - timestamp entry < 300000 → result entry = true) →
  ∃ cache',
    hasPermission (Some u) resource action scope allRoles options now cache
    = Some (Return true, cache').
Proof.
  intros Hact Hclaim Hdirect Hcache.
  rewrite (hasPermission_active _ _ _ _ _ _ _ _ _ Hact Hclaim).
  assert (fresh_verdict u claim allRoles = Some true) as ->.
  { unfold fresh_verdict, includes. by rewrite bool_decide_true. }
  unfold useCache_on. case_bool_decide as Hoff; simpl; [by eexists|].
  destruct (cache !! cacheKey (user_id u) claim) as [entry|] eqn:Hentry; simpl;
    [|by eexists].
  case_bool_decide as Hlive; [|by eexists].
  rewrite (Hcache entry Hoff eq_refl) by done. by eexists.
Qed.

Lemma hasPermission_direct_witness :
  ∃ cache',
    hasPermission
      (Some {| user_id := "user-help-005"; roles := ["helpdesk"];
               directPermissions := Some ["billing:view:all"]; user_isActive := true |})
      "billing" "view" "all" [Examples.helpdesk] Examples.default_options 0 ∅
    = Some (Return true, cache').
Proof.
  apply (hasPermission_direct _ "billing" "view" "all" _ _ _ _ "billing:view:all");
    [done|done|by left|].
  intros entry _. by rewrite lookup_empty.
Defined.

(** The fresh verdict against the enumeration of effective permissions. *)
Lemma fresh_verdict_effective u claim allRoles options b l :
  NoDup (role_id <$> allRoles) →
  sortByRisk options ≠ Some true →
  fresh_verdict u claim allRoles = Some b →
  getUserEffectivePermissions u allRoles options = Some l →
  b = true ↔ claim ∈ l.
Proof.
  intros Hids Hsort Hb Hl.
  destruct (getUserEffectivePermissions_unsorted u allRoles options Hsort)
    as (l' & Hl' & _ & Hiff).
  rewrite Hl in Hl'. injection Hl' as <-. rewrite Hiff.
  assert (∀ role, role ∈ roles_of u allRoles →
            ∃ b' rp, roleHasPermission role claim allRoles = Some b'
                     ∧ getRoleEffectivePermissions role allRoles = Some rp
                     ∧ (b' = true ↔ claim ∈ rp)) as Hagree.
  { intros role (_ & _ & Hact)%elem_of_roles_of.
    apply resolver_agree; [done| |done]. apply recursion_budget_enough. }
  revert Hb. unfold fresh_verdict, includes. case_bool_decide as Hdirect.
  { intros [= <-]. split; [by left|done]. }
  destruct b.
  - intros (role & Hrole & Hhas)%for_of_return_true_true. split; [|done]. intros _.
    right. destruct (Hagree role Hrole) as (b' & rp & Hb' & Hrp & Hbrp).
    exists role, rp. repeat split; [done..|]. apply Hbrp. congruence.
  - intros Hall. split; [done|]. intros [?|(role & rp & Hrole & Hrp & Hin)]; [done|].
    pose proof (for_of_return_true_false _ _ Hall role Hrole) as Hfalse.
    destruct (Hagree role Hrole) as (b' & rp' & Hb' & Hrp' & Hbrp).
    simpl in Hfalse. rewrite Hrp in Hrp'. injection Hrp' as <-.
    apply Hbrp in Hin. congruence.
Qed.

(** X24.  Decision and enumeration agree: for an active principal, a role
    set without two roles under one id, and caching off, [hasPermission]
    grants exactly the claims that [getUserEffectivePermissions] lists. *)
Theorem hasPermission_iff_effective u resource action scope allRoles options
    listOptions now cache claim :
  user_isActive u = true →
  createPermissionClaim resource action scope = Return claim →
  NoDup (role_id <$> allRoles) →
  useCache options = Some false →
  sortByRisk listOptions ≠ Some true →
  ∃ b l,
    hasPermission (Some u) resource action scope allRoles options now cache
    = Some (Return b, cache)
    ∧ getUserEffectivePermissions u allRoles listOptions = Some l
    ∧ (b = true ↔ claim ∈ l).
Proof.
  intros Hact Hclaim Hids Hoff Hsort.
  rewrite (hasPermission_active _ _ _ _ _ _ _ _ _ Hact Hclaim).
  unfold useCache_on. rewrite bool_decide_true by done. simpl.
  destruct (fresh_verdict_total u claim allRoles) as [b Hb]. rewrite Hb.
  destruct (getUserEffectivePermissions_unsorted u allRoles listOptions Hsort)
    as (l & Hl & _ & _).
  exists b, l. split; [done|]. split; [done|].
  by eapply fresh_verdict_effective.
Qed.

Lemma hasPermission_iff_effective_witness :
  ∃ b l,
    hasPermission
      (Some {| user_id := "user-tech-002"; roles := ["tech-director"];
               directPermissions := None; user_isActive := true |})
      "feedback" "view" "all" [Examples.tech_director; Examples.helpdesk]
      {| logAccess := None; checkExpiry := None; useCache := Some false |} 0 ∅
    = Some (Return b, ∅)
    ∧ getUserEffectivePermissions
        {| user_id := "user-tech-002"; roles := ["tech-director"];
           directPermissions := None; user_isActive := true |}
        [Examples.tech_director; Examples.helpdesk] Examples.no_options = Some l
    ∧ (b = true ↔ "feedback:view:all" ∈ l).
Proof.
  apply (hasPermission_iff_effective _ "feedback" "view" "all"); try done.
  apply (bool_decide_unpack _). by vm_compute.
Defined.

(** X25.  [checkAuthorization] never rejects: it resolves with the verdict
    of [hasPermission] as [authorized], leaves the cache as [hasPermission]
    does, and carries an error message exactly when access is denied. *)
Theorem checkAuthorization_result user resource action scope allRoles options now cache :
  ∃ b cache',
    hasPermission user resource action scope allRoles options now cache
    = Some (Return b, cache')
    ∧ checkAuthorization user resource action scope allRoles options now cache
      = Some (Return
                {| authorized := b;
                   error :=
                     if b then None
                     else Some (match user with
                                | None => "User not authenticated"
                                | Some u =>
                                    if user_isActive u
                                    then "Insufficient permissions: "
                                         +:+ claim_string resource action scope
                                    else "User account is inactive"
                                end) |},
              cache').
Proof.
  destruct (hasPermission_returns user resource action scope allRoles options now cache)
    as (b & cache' & Hret & Hearly).
  unfold checkAuthorization.
  destruct user as [u|]; [destruct (user_isActive u) eqn:Hact|].
  - exists b, cache'. split; [done|]. apply try_catchM_returns. simpl.
    rewrite (bind_returns _ _ _ _ _ Hret). by destruct b.
  - destruct Hearly as [-> ->]; [by left|]. exists false, cache. split; [done|].
    by apply try_catchM_returns.
  - destruct Hearly as [-> ->]; [done|]. by exists false, cache.
Qed.

(** ** Invalidation and statistics *)

Lemma clearPermissionCache_lookup_any userId (cache : Cache) key :
  clearPermissionCache userId cache !! key
  = match userId with
    | Some uid =>
        if bool_decide (uid = "") then None
        else if startsWith key (uid +:+ ":") then None else cache !! key
    | None => None
    end.
Proof.
  destruct userId as [uid|]; [|apply lookup_empty].
  case_bool_decide as He.
  - subst uid. apply lookup_empty.
  - by apply clearPermissionCache_lookup.
Qed.

(** X26.  [clearPermissionCache] only removes: an entry of the cache after
    the call was there, unchanged, before it; clearing twice with the same
    argument is the same as clearing once; and two invalidations can be made
    in either order. *)
Theorem clearPermissionCache_only_removes userId userId' (cache : Cache) :
  (∀ key entry, clearPermissionCache userId cache !! key = Some entry →
                cache !! key = Some entry)
  ∧ clearPermissionCache userId (clearPermissionCache userId cache)
    = clearPermissionCache userId cache
  ∧ clearPermissionCache userId (clearPermissionCache userId' cache)
    = clearPermissionCache userId' (clearPermissionCache userId cache).
Proof.
  split; [|split].
  - intros key entry. rewrite clearPermissionCache_lookup_any.
    destruct userId as [uid|]; [|done]. case_bool_decide; [done|].
    by destruct (startsWith _ _).
  - apply map_eq. intros key. rewrite !clearPermissionCache_lookup_any.
    destruct userId as [uid|]; [|done]. case_bool_decide; [done|].
    by destruct (startsWith _ _).
  - apply map_eq. intros key. rewrite !clearPermissionCache_lookup_any.
    destruct userId as [uid|], userId' as [uid'|]; try done;
      repeat case_bool_decide; try done;
      repeat match goal with
             | |- context [startsWith ?k ?p] => destruct (startsWith k p)
             end; done.
Qed.

Lemma clearPermissionCache_only_removes_witness :
  Examples.two_principals !! cacheKey "a" "member:view:all"
  = Some {| result := false; timestamp := 0 |}.
Proof.
  apply (proj1 (clearPermissionCache_only_removes (Some "a:b") None
                  Examples.two_principals)).
  by vm_compute.
Defined.

Lemma oldest_timestamp_spec now (cache : Cache) :
  let oldest :=
    map_fold (λ (_ : string) value oldest,
                if bool_decide (timestamp value < oldest) then timestamp value else oldest)
      now cache in
  oldest ≤ now
  ∧ (∀ key entry, cache !! key = Some entry → oldest ≤ timestamp entry)
  ∧ (oldest = now ∨ ∃ key entry, cache !! key = Some entry ∧ oldest = timestamp entry).
Proof.
  simpl. apply (map_fold_weak_ind (λ oldest (cache : Cache),
    oldest ≤ now
    ∧ (∀ key entry, cache !! key = Some entry → oldest ≤ timestamp entry)
    ∧ (oldest = now ∨ ∃ key entry, cache !! key = Some entry ∧ oldest = timestamp entry))).
  - split; [lia|]. split; [|by left]. intros key entry. by rewrite lookup_empty.
  - intros key value m oldest Hnone (Hle & Hall & Hwit). case_bool_decide as Hlt.
    + split; [lia|]. split.
      * intros key' entry. rewrite lookup_insert. case_decide.
        -- intros [= <-]. lia.
        -- intros He. specialize (Hall _ _ He). lia.
      * right. exists key, value. by rewrite lookup_insert_eq.
    + split; [done|]. split.
      * intros key' entry. rewrite lookup_insert. case_decide.
        -- intros [= <-]. lia.
        -- apply Hall.
      * destruct Hwit as [?|(key' & entry & He & ?)]; [by left|right].
        exists key', entry. split; [|done]. rewrite lookup_insert_ne; [done|].
        intros <-. congruence.
Qed.

(** X27.  [getCacheStats] reports the number of entries, a hit rate of 0,
    and as [oldestEntry] the greatest age among the entries: it is never
    negative, no entry is older, and it is 0 or the age of some entry. *)
Theorem getCacheStats_oldest now (cache : Cache) :
  let stats := getCacheStats now cache in
  stats_size stats = size cache
  ∧ hitRate stats = 0
  ∧ 0 ≤ oldestEntry stats
  ∧ (∀ key entry, cache !! key = Some entry → now - timestamp entry ≤ oldestEntry stats)
  ∧ (oldestEntry stats = 0
     ∨ ∃ key entry, cache !! key = Some entry ∧ oldestEntry stats = now - timestamp entry).
Proof.
  destruct (oldest_timestamp_spec now cache) as (Hle & Hall & Hwit).
  simpl in *. split; [done|]. split; [done|]. split; [lia|]. split.
  - intros key entry He. specialize (Hall _ _ He). lia.
  - destruct Hwit as [->|(key & entry & He & ->)]; [left; lia|right].
    by exists key, entry.
Qed.

Lemma getCacheStats_oldest_witness :
  300 - 0 ≤ oldestEntry (getCacheStats 300 Examples.two_principals).
Proof.
  apply (proj1 (proj2 (proj2 (proj2 (getCacheStats_oldest 300 Examples.two_principals))))
           (cacheKey "a" "member:view:all") {| result := false; timestamp := 0 |}).
  by vm_compute.
Defined.
